(** * Hello Synth: the voice and routing engine of [src/components/Synth.js]

    A shallow embedding of the [Synth] component: the Web Audio nodes it
    creates and wires, the React state of one render, the refs that survive
    renders, the handlers of the component, and the arpeggiator effect
    with its dependency array.  The two touch handlers resolve a key and
    call [playNote] and [stopNote] as the keyboard handlers do; they have no
    definition of their own here.

    - JavaScript numbers are IEEE binary64 values: [float].
    - [voicesRef.current] is an array used as a map from note names to
      [{vca}] records: a [gmap string Voice].  Note names are those of the
      note table; none of them is the name of a property of [Array].
    - Audio nodes created per voice live in a heap indexed by allocation
      order; the shared nodes (main gain, filter, delay, feedback, LFO, LFO
      gain) are fields of the store, as they are refs of the component.
    - A handler reads the state of the render that created it and queues
      state updates ([setPressedKeys], [setCurrentNote], ...): it maps the
      store and the pending next state to a new store and pending state. *)

From Stdlib Require Import Floats.
From stdpp Require Import gmap strings list.

Set Warnings "-inexact-float".
Open Scope string_scope.
Open Scope list_scope.

(** ** Web Audio: parameters, automation and connections *)

Inductive AutomationEvent :=
  | setValueAtTime (v t : float)
  | linearRampToValueAtTime (v t : float)
  | cancelAndHoldAtTime (t : float).

Record AudioParam := mkParam {
  value : float;
  automation : list AutomationEvent;
}.

(** The inputs a node output can be connected to. *)
Inductive Target :=
  | Tdestination
  | TmainGain
  | Tfilter
  | TfilterFrequency
  | Tdelay
  | Tfeedback
  | TlfoGain
  | Tnode (id : nat)
  | Tdetune (id : nat).

#[global] Instance Target_eq_dec : EqDecision Target.
Proof. solve_decision. Defined.

Record OscillatorNode := mkOsc {
  osc_type : string;
  osc_frequency : AudioParam;
  osc_detune : AudioParam;
  osc_started : bool;
  osc_stopped : bool;
  osc_outputs : list Target;
}.

Record GainNode := mkGain {
  gain : AudioParam;
  gain_outputs : list Target;
}.

Record BiquadFilterNode := mkBiquad {
  bq_type : string;
  bq_frequency : AudioParam;
  bq_Q : AudioParam;
  bq_outputs : list Target;
}.

Record DelayNode := mkDelay {
  delayTime : AudioParam;
  delay_outputs : list Target;
}.

Inductive Node :=
  | NOsc (o : OscillatorNode)
  | NGain (g : GainNode).

(** [param.setValueAtTime(v, t)] and friends append to the schedule. *)
Definition schedule (e : AutomationEvent) (p : AudioParam) : AudioParam :=
  mkParam (value p) (automation p ++ [e]).

(** [param.value = v]. *)
Definition set_value (v : float) (p : AudioParam) : AudioParam :=
  mkParam v (automation p).

(** [node.connect(target)]: a connection that exists is not added twice. *)
Definition connect (t : Target) (outs : list Target) : list Target :=
  if bool_decide (t ∈ outs) then outs else outs ++ [t].

(** [node.disconnect()] without argument drops every outgoing connection. *)
Definition disconnect (outs : list Target) : list Target := [].

(** [context.createOscillator()] and [context.createGain()]. *)
Definition new_oscillator : OscillatorNode :=
  mkOsc "sine" (mkParam 440 []) (mkParam 0 []) false false [].

Definition new_gain : GainNode := mkGain (mkParam 1 []) [].

(** ** Parameter records *)

Record Note := mkNote {
  name : string;
  frequency : option float;
}.

Record OscParams := mkOscParams {
  o_type : string;
  o_detune : float;
  o_octave : float;
}.

Record LFOParams := mkLFO {
  l_frequency : float;
  l_level : float;
  l_destination : string;
  l_type : string;
}.

Record AmpParams := mkAmp { a_level : float }.

Record FilterParams := mkFilter {
  f_frequency : float;
  f_q : float;
}.

Record DelayParams := mkDelayParams {
  d_time : float;
  d_feedback : float;
}.

Record ControlParams := mkControl {
  tempo : float;
  latch : bool;
  arp : bool;
}.

Record EnvelopeParams := mkEnvelope {
  attack : float;
  decay : float;
  sustain : float;
  release : float;
}.

Module DEFAULTS.
Definition lfo := mkLFO 1 0 "filter" "triangle".
Definition osc1 := mkOscParams "sawtooth" 0 1.
Definition osc2 := mkOscParams "square" 0 1.
Definition amp := mkAmp 0.2.
Definition filter := mkFilter 1500 0.
Definition delay := mkDelayParams 0 0.
Definition control := mkControl 90 false false.
Definition envelope := mkEnvelope 0 0.5 0.2 0.
End DEFAULTS.

(** ** The refs of the component: the store *)

Record Voice := mkVoice { vca : nat }.

Record Store := mkStore {
  currentTime : float;
  voicesRef : gmap string Voice;
  nodes : gmap nat Node;
  next_id : nat;
  mainGainRef : GainNode;
  filterRef : BiquadFilterNode;
  delayRef : DelayNode;
  feedbackRef : GainNode;
  envelopeRef : EnvelopeParams;
  lfoRef : OscillatorNode;
  lfoGainRef : GainNode;
}.

(** ** The state of one render *)

Record Render := mkRender {
  currentNote : option nat;
  pressedKeys : list Note;
  pressedKeysId : nat;
  midiSettingsVisible : bool;
  osc1 : OscParams;
  osc2 : OscParams;
  lfo : LFOParams;
  amp : AmpParams;
  filter : FilterParams;
  envelope : EnvelopeParams;
  delay : DelayParams;
  control : ControlParams;
}.

(** [pressedKeysId] stands for the identity of the [pressedKeys] array: every
    [setPressedKeys] call of the component passes a freshly built array, and
    the dependency array of the arpeggiator effect compares identities. *)

(** *** Updating one ref *)

Definition with_currentTime (t : float) (s : Store) : Store :=
  mkStore t (voicesRef s) (nodes s) (next_id s) (mainGainRef s) (filterRef s)
    (delayRef s) (feedbackRef s) (envelopeRef s) (lfoRef s) (lfoGainRef s).

Definition with_voices (v : gmap string Voice) (s : Store) : Store :=
  mkStore (currentTime s) v (nodes s) (next_id s) (mainGainRef s) (filterRef s)
    (delayRef s) (feedbackRef s) (envelopeRef s) (lfoRef s) (lfoGainRef s).

Definition with_nodes (n : gmap nat Node) (s : Store) : Store :=
  mkStore (currentTime s) (voicesRef s) n (next_id s) (mainGainRef s)
    (filterRef s) (delayRef s) (feedbackRef s) (envelopeRef s) (lfoRef s)
    (lfoGainRef s).

Definition with_mainGain (g : GainNode) (s : Store) : Store :=
  mkStore (currentTime s) (voicesRef s) (nodes s) (next_id s) g (filterRef s)
    (delayRef s) (feedbackRef s) (envelopeRef s) (lfoRef s) (lfoGainRef s).

Definition with_filter (f : BiquadFilterNode) (s : Store) : Store :=
  mkStore (currentTime s) (voicesRef s) (nodes s) (next_id s) (mainGainRef s) f
    (delayRef s) (feedbackRef s) (envelopeRef s) (lfoRef s) (lfoGainRef s).

Definition with_delay (d : DelayNode) (s : Store) : Store :=
  mkStore (currentTime s) (voicesRef s) (nodes s) (next_id s) (mainGainRef s)
    (filterRef s) d (feedbackRef s) (envelopeRef s) (lfoRef s) (lfoGainRef s).

Definition with_feedback (g : GainNode) (s : Store) : Store :=
  mkStore (currentTime s) (voicesRef s) (nodes s) (next_id s) (mainGainRef s)
    (filterRef s) (delayRef s) g (envelopeRef s) (lfoRef s) (lfoGainRef s).

Definition with_envelopeRef (e : EnvelopeParams) (s : Store) : Store :=
  mkStore (currentTime s) (voicesRef s) (nodes s) (next_id s) (mainGainRef s)
    (filterRef s) (delayRef s) (feedbackRef s) e (lfoRef s) (lfoGainRef s).

Definition with_lfo (o : OscillatorNode) (s : Store) : Store :=
  mkStore (currentTime s) (voicesRef s) (nodes s) (next_id s) (mainGainRef s)
    (filterRef s) (delayRef s) (feedbackRef s) (envelopeRef s) o (lfoGainRef s).

Definition with_lfoGain (g : GainNode) (s : Store) : Store :=
  mkStore (currentTime s) (voicesRef s) (nodes s) (next_id s) (mainGainRef s)
    (filterRef s) (delayRef s) (feedbackRef s) (envelopeRef s) (lfoRef s) g.

(** Allocation of a node created by the audio context. *)
Definition alloc (n : Node) (s : Store) : Store :=
  mkStore (currentTime s) (voicesRef s) (<[next_id s := n]> (nodes s))
    (S (next_id s)) (mainGainRef s) (filterRef s) (delayRef s) (feedbackRef s)
    (envelopeRef s) (lfoRef s) (lfoGainRef s).

(** *** The state setters of the component *)

Definition setCurrentNote (c : option nat) (r : Render) : Render :=
  mkRender c (pressedKeys r) (pressedKeysId r) (midiSettingsVisible r) (osc1 r)
    (osc2 r) (lfo r) (amp r) (filter r) (envelope r) (delay r) (control r).

Definition setPressedKeys (k : list Note) (r : Render) : Render :=
  mkRender (currentNote r) k (S (pressedKeysId r)) (midiSettingsVisible r)
    (osc1 r) (osc2 r) (lfo r) (amp r) (filter r) (envelope r) (delay r)
    (control r).

Definition setMidiSettingsVisible (b : bool) (r : Render) : Render :=
  mkRender (currentNote r) (pressedKeys r) (pressedKeysId r) b (osc1 r) (osc2 r)
    (lfo r) (amp r) (filter r) (envelope r) (delay r) (control r).

Definition setOsc1 (o : OscParams) (r : Render) : Render :=
  mkRender (currentNote r) (pressedKeys r) (pressedKeysId r)
    (midiSettingsVisible r) o (osc2 r) (lfo r) (amp r) (filter r) (envelope r)
    (delay r) (control r).

Definition setOsc2 (o : OscParams) (r : Render) : Render :=
  mkRender (currentNote r) (pressedKeys r) (pressedKeysId r)
    (midiSettingsVisible r) (osc1 r) o (lfo r) (amp r) (filter r) (envelope r)
    (delay r) (control r).

Definition setLFO (l : LFOParams) (r : Render) : Render :=
  mkRender (currentNote r) (pressedKeys r) (pressedKeysId r)
    (midiSettingsVisible r) (osc1 r) (osc2 r) l (amp r) (filter r) (envelope r)
    (delay r) (control r).

Definition setAmp (a : AmpParams) (r : Render) : Render :=
  mkRender (currentNote r) (pressedKeys r) (pressedKeysId r)
    (midiSettingsVisible r) (osc1 r) (osc2 r) (lfo r) a (filter r) (envelope r)
    (delay r) (control r).

Definition setFilter (f : FilterParams) (r : Render) : Render :=
  mkRender (currentNote r) (pressedKeys r) (pressedKeysId r)
    (midiSettingsVisible r) (osc1 r) (osc2 r) (lfo r) (amp r) f (envelope r)
    (delay r) (control r).

Definition setEnvelope (e : EnvelopeParams) (r : Render) : Render :=
  mkRender (currentNote r) (pressedKeys r) (pressedKeysId r)
    (midiSettingsVisible r) (osc1 r) (osc2 r) (lfo r) (amp r) (filter r) e
    (delay r) (control r).

Definition setDelay (d : DelayParams) (r : Render) : Render :=
  mkRender (currentNote r) (pressedKeys r) (pressedKeysId r)
    (midiSettingsVisible r) (osc1 r) (osc2 r) (lfo r) (amp r) (filter r)
    (envelope r) d (control r).

Definition setControl (c : ControlParams) (r : Render) : Render :=
  mkRender (currentNote r) (pressedKeys r) (pressedKeysId r)
    (midiSettingsVisible r) (osc1 r) (osc2 r) (lfo r) (amp r) (filter r)
    (envelope r) (delay r) c.

(** ** Voices: [createOscillator], [destroyOscillator], [playArpNote] *)

(** [!frequency] is false for a number that is neither 0 nor NaN. *)
Definition truthy (f : option float) : bool :=
  match f with
  | None => false
  | Some x => negb (PrimFloat.is_zero x || PrimFloat.is_nan x)
  end.

(** The two calls of a note-off on the gain of a VCA. *)
Definition release_ramp (t_cancel t_end : float) (n : Node) : Node :=
  match n with
  | NGain g =>
      NGain (mkGain
        (schedule (linearRampToValueAtTime 0 t_end)
           (schedule (cancelAndHoldAtTime t_cancel) (gain g)))
        (gain_outputs g))
  | NOsc o => NOsc o
  end.

Definition destroyOscillator (note : Note) (s : Store) : Store :=
  match voicesRef s !! name note with
  | None => s
  | Some v =>
      with_nodes
        (alter (release_ramp (currentTime s)
                  (currentTime s + release (envelopeRef s))) (vca v) (nodes s))
        s
  end.

(** One oscillator of a voice, as [createOscillator] sets it up; [id] is the
    heap address it gets, [idv] the address of the VCA it is connected to. *)
Definition voice_oscillator (p : OscParams) (f now : float) (idv : nat)
  : OscillatorNode :=
  mkOsc (o_type p)
    (set_value (f * o_octave p) (osc_frequency new_oscillator))
    (schedule (setValueAtTime (o_detune p) now) (osc_detune new_oscillator))
    true false
    (connect (Tnode idv) (osc_outputs new_oscillator)).

Definition voice_vca (r : Render) (s : Store) : GainNode :=
  let now := currentTime s in
  mkGain
    (schedule
       (linearRampToValueAtTime (sustain (envelope r))
          (now + attack (envelopeRef s) + decay (envelopeRef s)))
       (schedule
          (linearRampToValueAtTime 0.1 (now + attack (envelopeRef s)))
          (schedule (setValueAtTime 0 now) (set_value 0 (gain new_gain)))))
    (connect Tfilter (gain_outputs new_gain)).

(** [lfoGainRef.current.connect(oscillator.detune)] when the LFO of the
    render is routed to [dest]. *)
Definition route_lfo (r : Render) (dest : string) (id : nat) (s : Store) : Store :=
  if String.eqb (l_destination (lfo r)) dest then
    with_lfoGain
      (mkGain (gain (lfoGainRef s))
         (connect (Tdetune id) (gain_outputs (lfoGainRef s)))) s
  else s.

Definition createOscillator (r : Render) (note : Note) (s : Store) : Store :=
  match frequency note with
  | Some f =>
      if truthy (Some f) then
        let s := match voicesRef s !! name note with
                 | Some _ => destroyOscillator note s
                 | None => s
                 end in
        let now := currentTime s in
        let id1 := next_id s in
        let id2 := S id1 in
        let idv := S id2 in
        let s := alloc (NOsc (voice_oscillator (osc1 r) f now idv)) s in
        let s := route_lfo r "osc1" id1 s in
        let s := alloc (NOsc (voice_oscillator (osc2 r) f now idv)) s in
        let s := route_lfo r "osc2" id2 s in
        let s := alloc (NGain (voice_vca r s)) s in
        with_voices (<[name note := mkVoice idv]> (voicesRef s)) s
      else s
  | None => s
  end.

(** [playArpNote] reads the voice back without a guard: destructuring
    [undefined] throws a [TypeError], which is [None] here. *)
Definition playArpNote (r : Render) (note : Note) (s : Store) : option Store :=
  let s := createOscillator r note s in
  match voicesRef s !! name note with
  | None => None
  | Some v =>
      Some (with_nodes
              (alter (release_ramp (currentTime s + 1)
                        (currentTime s + release (envelope r) + 1))
                 (vca v) (nodes s)) s)
  end.

(** ** Handlers

    A handler belongs to a render [r], whose state it reads; it updates the
    store and queues state updates on the pending next state. *)

Definition Pending : Type := Store * Render.

Definition on_store (f : Store → Store) (w : Pending) : Pending := (f w.1, w.2).
Definition on_state (f : Render → Render) (w : Pending) : Pending := (w.1, f w.2).

(** JavaScript [!==] on numbers. *)
Definition num_neq (a b : float) : bool := negb (PrimFloat.eqb a b).

Definition same_name (note : Note) (n : Note) : bool :=
  String.eqb (name n) (name note).

Definition stopNote (r : Render) (note : Note) (force : bool) (w : Pending)
  : Pending :=
  if latch (control r) && negb force then w
  else
    let w := on_store (destroyOscillator note) w in
    let filteredKeys :=
      List.filter (λ n, negb (same_name note n)) (pressedKeys r) in
    on_state (setPressedKeys filteredKeys) w.

Definition playNote (r : Render) (note : Note) (w : Pending) : Pending :=
  let notePressed := List.find (same_name note) (pressedKeys r) in
  let w := if latch (control r) && bool_decide (is_Some notePressed)
           then stopNote r note true w else w in
  if bool_decide (is_Some notePressed) then w
  else
    let w := on_state (setPressedKeys (pressedKeys r ++ [note])) w in
    if arp (control r) then w
    else on_store (createOscillator r note) w.

(** [pressedKeys.forEach((note) => stopNote(note, true)); setPressedKeys([])] *)
Definition release_all (r : Render) (w : Pending) : Pending :=
  let w := foldl (λ w note, stopNote r note true w) w (pressedKeys r) in
  on_state (setPressedKeys []) w.

Definition handleControlChange (r : Render) (newControl : ControlParams)
  (w : Pending) : Pending :=
  let w := if negb (Bool.eqb (latch (control r)) (latch newControl))
              && negb (latch newControl)
           then release_all r w else w in
  let w :=
    if arp newControl && negb (Bool.eqb (arp newControl) (arp (control r))) then
      let w := on_state (setCurrentNote (Some 0)) w in
      on_store (λ s, foldl (λ s note, destroyOscillator note s) s (pressedKeys r)) w
    else if negb (Bool.eqb (arp newControl) (arp (control r))) then
      let w := if latch newControl
               then on_store (λ s, foldl (λ s note, createOscillator r note s) s
                                     (pressedKeys r)) w
               else w in
      on_state (setCurrentNote None) w
    else w in
  on_state (setControl newControl) w.

Definition handleLFOChange (r : Render) (newLFO : LFOParams) (w : Pending)
  : Pending :=
  let w :=
    if negb (String.eqb (l_destination (lfo r)) (l_destination newLFO)) then
      let w := on_store (λ s, with_lfoGain
                   (mkGain (gain (lfoGainRef s))
                      (disconnect (gain_outputs (lfoGainRef s)))) s) w in
      if String.eqb (l_destination newLFO) "filter" then
        on_store (λ s, with_lfoGain
                   (mkGain (gain (lfoGainRef s))
                      (connect TfilterFrequency (gain_outputs (lfoGainRef s)))) s) w
      else w
    else w in
  let w := on_store (λ s,
    if num_neq (value (gain (lfoGainRef s))) (l_level newLFO) then
      with_lfoGain (mkGain (set_value (l_level newLFO) (gain (lfoGainRef s)))
                      (gain_outputs (lfoGainRef s))) s
    else s) w in
  let w := on_store (λ s,
    if negb (String.eqb (osc_type (lfoRef s)) (l_type newLFO)) then
      with_lfo (mkOsc (l_type newLFO) (osc_frequency (lfoRef s))
                  (osc_detune (lfoRef s)) (osc_started (lfoRef s))
                  (osc_stopped (lfoRef s)) (osc_outputs (lfoRef s))) s
    else s) w in
  (* [lfoRef.current.frequency] is an AudioParam, never [===] to a number *)
  let w := on_store (λ s,
    with_lfo (mkOsc (osc_type (lfoRef s))
                (schedule (setValueAtTime (l_frequency newLFO) (currentTime s))
                   (osc_frequency (lfoRef s)))
                (osc_detune (lfoRef s)) (osc_started (lfoRef s))
                (osc_stopped (lfoRef s)) (osc_outputs (lfoRef s))) s) w in
  on_state (setLFO newLFO) w.

Definition handleOsc1Change (newOsc : OscParams) (w : Pending) : Pending :=
  on_state (setOsc1 newOsc) w.

Definition handleOsc2Change (newOsc : OscParams) (w : Pending) : Pending :=
  on_state (setOsc2 newOsc) w.

Definition handleAmpChange (newAmp : AmpParams) (w : Pending) : Pending :=
  let w := on_store (λ s,
    if num_neq (value (gain (mainGainRef s))) (a_level newAmp) then
      with_mainGain (mkGain (set_value (a_level newAmp) (gain (mainGainRef s)))
                       (gain_outputs (mainGainRef s))) s
    else s) w in
  on_state (setAmp newAmp) w.

Definition handleFilterChange (r : Render) (newFilter : FilterParams)
  (w : Pending) : Pending :=
  let w := on_store (λ s,
    if num_neq (f_frequency newFilter) (f_frequency (filter r)) then
      with_filter (mkBiquad (bq_type (filterRef s))
                     (schedule (setValueAtTime (f_frequency newFilter)
                                  (currentTime s)) (bq_frequency (filterRef s)))
                     (bq_Q (filterRef s)) (bq_outputs (filterRef s))) s
    else s) w in
  let w := on_store (λ s,
    if num_neq (f_q newFilter) (f_q (filter r)) then
      with_filter (mkBiquad (bq_type (filterRef s)) (bq_frequency (filterRef s))
                     (schedule (setValueAtTime (f_q newFilter) (currentTime s))
                        (bq_Q (filterRef s)))
                     (bq_outputs (filterRef s))) s
    else s) w in
  on_state (setFilter newFilter) w.

Definition handleEnvelopeChange (newEnvelope : EnvelopeParams) (w : Pending)
  : Pending :=
  let w := on_store (with_envelopeRef newEnvelope) w in
  on_state (setEnvelope newEnvelope) w.

Definition handleDelayChange (r : Render) (newDelay : DelayParams) (w : Pending)
  : Pending :=
  let w := on_store (λ s,
    if num_neq (d_time newDelay) (d_time (delay r)) then
      with_delay (mkDelay (set_value (d_time newDelay) (delayTime (delayRef s)))
                    (delay_outputs (delayRef s))) s
    else s) w in
  let w := on_store (λ s,
    if num_neq (d_feedback newDelay) (d_feedback (delay r)) then
      with_feedback (mkGain (set_value (d_feedback newDelay)
                               (gain (feedbackRef s)))
                       (gain_outputs (feedbackRef s))) s
    else s) w in
  on_state (setDelay newDelay) w.

(** The key tables [KEYS] and [NOTES] are data files of the repository:
    [KEYS] maps a key to the name of its note, [NOTES] lists the notes. *)
Record Tables := mkTables {
  KEYS : gmap string string;
  NOTES : list Note;
}.

Definition lookup_note (T : Tables) (key : string) : option Note :=
  match KEYS T !! key with
  | None => None
  | Some nm => List.find (λ n, String.eqb (name n) nm) (NOTES T)
  end.

Definition handleKeyDown (T : Tables) (r : Render) (key : string)
  (shiftKey : bool) (w : Pending) : Pending :=
  if String.eqb key "Escape" then release_all r w
  else if String.eqb key "M" && shiftKey then
    on_state (setMidiSettingsVisible (negb (midiSettingsVisible r))) w
  else
    match lookup_note T key with
    | Some note => playNote r note w
    | None => w
    end.

Definition handleKeyUp (T : Tables) (r : Render) (key : string) (w : Pending)
  : Pending :=
  match lookup_note T key with
  | Some note => stopNote r note false w
  | None => w
  end.

(** ** The arpeggiator effect and the render cycle *)

(** [currentNote ? pressedKeys[currentNote] : pressedKeys[0]]: [null] and
    [0] are falsy. *)
Definition arp_note (r : Render) : option Note :=
  match currentNote r with
  | Some (S c) => pressedKeys r !! S c
  | _ => pressedKeys r !! 0
  end.

(** The body of the effect: the store after it, and the delay in
    milliseconds of the timeout it arms, if any.  [None]: it threw. *)
Definition arp_effect (r : Render) (s : Store) : option (Store * option float) :=
  if arp (control r) && (0 <? length (pressedKeys r))%nat then
    let secondsPerBeat := (60 / tempo (control r))%float in
    match arp_note r with
    | Some note =>
        match playArpNote r note s with
        | Some s' => Some (s', Some (secondsPerBeat * 1000)%float)
        | None => None
        end
    | None => Some (s, Some (secondsPerBeat * 1000)%float)
    end
  else Some (s, None).

(** The callback of the timeout. *)
Definition arp_timeout (r : Render) : Render :=
  let nextNote := match currentNote r with Some c => (c + 1)%nat | None => 1%nat end in
  if (nextNote =? length (pressedKeys r))%nat then setCurrentNote (Some 0) r
  else setCurrentNote (Some nextNote) r.

(** The dependency array [[pressedKeys, currentNote, control.arp]]. *)
Definition deps (r : Render) : nat * option nat * bool :=
  (pressedKeysId r, currentNote r, arp (control r)).

Record World := mkWorld {
  render : Render;
  store : Store;
  arpClock : option float;
}.

(** After a handler or a callback ran, React renders the pending state.  It
    compares the dependencies of the effect with those of the previous
    render: a state that was set to the value it had leaves them equal, and
    the effect does not run.  When one of them changed, the cleanup of the
    previous run clears its timeout and the effect runs again. *)
Definition commit (clock : option float) (old : Render) (w : Pending)
  : option World :=
  if bool_decide (deps w.2 = deps old) then Some (mkWorld w.2 w.1 clock)
  else
    match arp_effect w.2 w.1 with
    | Some (s, t) => Some (mkWorld w.2 s t)
    | None => None
    end.

(** What reaches the component. *)
Inductive Event :=
  | KeyDown (key : string) (shiftKey : bool)
  | KeyUp (key : string)
  | Osc1Change (newOsc : OscParams)
  | Osc2Change (newOsc : OscParams)
  | AmpChange (newAmp : AmpParams)
  | FilterChange (newFilter : FilterParams)
  | EnvelopeChange (newEnvelope : EnvelopeParams)
  | DelayChange (newDelay : DelayParams)
  | ControlChange (newControl : ControlParams)
  | LFOChange (newLFO : LFOParams)
  | NotePlayed (note : Note)
  | NoteStopped (note : Note)
  | Timeout
  | Clock (t : float).

(** One event, run to completion; [None] when an exception escapes. *)
Definition step (T : Tables) (e : Event) (w : World) : option World :=
  let r := render w in
  let p : Pending := (store w, r) in
  let done := commit (arpClock w) r in
  match e with
  | KeyDown key shiftKey => done (handleKeyDown T r key shiftKey p)
  | KeyUp key => done (handleKeyUp T r key p)
  | Osc1Change o => done (handleOsc1Change o p)
  | Osc2Change o => done (handleOsc2Change o p)
  | AmpChange a => done (handleAmpChange a p)
  | FilterChange f => done (handleFilterChange r f p)
  | EnvelopeChange e => done (handleEnvelopeChange e p)
  | DelayChange d => done (handleDelayChange r d p)
  | ControlChange c => done (handleControlChange r c p)
  | LFOChange l => done (handleLFOChange r l p)
  | NotePlayed note => done (on_store (createOscillator r note) p)
  | NoteStopped note => done (on_store (destroyOscillator note) p)
  | Timeout =>
      match arpClock w with
      | Some _ => commit None r (store w, arp_timeout r)
      | None => Some w
      end
  | Clock t => Some (mkWorld r (with_currentTime t (store w)) (arpClock w))
  end.

Fixpoint run (T : Tables) (es : list Event) (w : World) : option World :=
  match es with
  | [] => Some w
  | e :: es =>
      match step T e w with
      | Some w' => run T es w'
      | None => None
      end
  end.

(** The mount effect: the shared nodes and their wiring. *)
Definition initial_store : Store :=
  let now := 0%float in
  mkStore now ∅ ∅ 0
    (mkGain (set_value (a_level DEFAULTS.amp) (gain new_gain))
       (connect Tdestination []))
    (mkBiquad "lowpass"
       (schedule (setValueAtTime (f_frequency DEFAULTS.filter) now)
          (mkParam 350 []))
       (schedule (setValueAtTime (f_q DEFAULTS.filter) now) (mkParam 1 []))
       (connect TmainGain (connect Tdelay [])))
    (mkDelay (set_value (d_time DEFAULTS.delay) (mkParam 0 []))
       (connect TmainGain (connect Tfeedback [])))
    (mkGain (set_value (d_feedback DEFAULTS.delay) (gain new_gain))
       (connect Tdelay []))
    DEFAULTS.envelope
    (mkOsc (l_type DEFAULTS.lfo)
       (schedule (setValueAtTime (l_frequency DEFAULTS.lfo) now)
          (osc_frequency new_oscillator))
       (osc_detune new_oscillator) true false (connect TlfoGain []))
    (mkGain (set_value (l_level DEFAULTS.lfo) (gain new_gain))
       (connect TfilterFrequency [])).

Definition initial_render : Render :=
  mkRender None [] 0 false DEFAULTS.osc1 DEFAULTS.osc2 DEFAULTS.lfo
    DEFAULTS.amp DEFAULTS.filter DEFAULTS.envelope DEFAULTS.delay
    DEFAULTS.control.

Definition initial_world : World := mkWorld initial_render initial_store None.

(** The worlds the component can be in. *)
Inductive reachable (T : Tables) : World → Prop :=
  | reachable_initial : reachable T initial_world
  | reachable_step e w w' :
      reachable T w → step T e w = Some w' → reachable T w'.

(** ** Notions used by the statements *)

(** The store behind the guard of [createOscillator]: the voice registered
    under the name of the note, if any, has gone through
    [destroyOscillator]. *)
Definition retriggered (note : Note) (s : Store) : Store :=
  match voicesRef s !! name note with
  | Some _ => destroyOscillator note s
  | None => s
  end.

(** The outputs of the LFO gain after the two routing steps of
    [createOscillator], [id1] being the address of the first oscillator. *)
Definition routed_outputs (r : Render) (id1 : nat) (outs : list Target)
  : list Target :=
  let outs := if String.eqb (l_destination (lfo r)) "osc1"
              then connect (Tdetune id1) outs else outs in
  if String.eqb (l_destination (lfo r)) "osc2"
  then connect (Tdetune (S id1)) outs else outs.

(** The attack and decay schedule of a VCA created at time [now]. *)
Definition attack_decay (now : float) (e_ref e_state : EnvelopeParams)
  : list AutomationEvent :=
  [ setValueAtTime 0 now;
    linearRampToValueAtTime 0.1 (now + attack e_ref);
    linearRampToValueAtTime (sustain e_state) (now + attack e_ref + decay e_ref) ].

(** The two events of a note-off at time [t] with release [rel]. *)
Definition note_off (t rel : float) : list AutomationEvent :=
  [ cancelAndHoldAtTime t; linearRampToValueAtTime 0 (t + rel) ].

(** The events that only replace a parameter record: all setters but the
    control one. *)
Definition is_setter (e : Event) : bool :=
  match e with
  | Osc1Change _ | Osc2Change _ | AmpChange _ | FilterChange _
  | EnvelopeChange _ | DelayChange _ | LFOChange _ => true
  | _ => false
  end.

(** Concrete data for the examples. *)
Module Ex.
Definition A4 : Note := mkNote "A4" (Some 440%float).
Definition C4 : Note := mkNote "C4" (Some 261.63%float).
Definition D4 : Note := mkNote "D4" (Some 293.66%float).
(** A note of the table without a frequency. *)
Definition X : Note := mkNote "X" None.

Definition tables : Tables :=
  mkTables {[ "a" := "C4"; "s" := "D4"; "x" := "X" ]} [C4; D4; X].

(** attack 0.1 s, decay 0.5 s, sustain 0.2, release 0.5 s *)
Definition env : EnvelopeParams := mkEnvelope 0.1 0.5 0.2 0.5.
Definition env_long : EnvelopeParams := mkEnvelope 0.1 0.5 0.2 2.

Definition with_env : Pending :=
  handleEnvelopeChange env (initial_store, initial_render).
End Ex.

(** The gain node at address [i] ends its automation with the two events
    of a note-off at time [t] with release [rel]. *)
Definition released_at (t rel : float) (s : Store) (i : nat) : Prop :=
  ∃ g pre, nodes s !! i = Some (NGain g) ∧
           automation (gain g) = pre ++ note_off t rel.

(** The cursor after the one under [c], for [n] held notes. *)
Definition next_cursor (c n : nat) : nat :=
  if (S c =? n)%nat then 0%nat else S c.

(** [pressedKeys.forEach((note) => destroyOscillator(note))] *)
Definition destroy_all (l : list Note) (s : Store) : Store :=
  foldl (λ s note, destroyOscillator note s) s l.

(** What a parameter setter leaves alone: the voices, their nodes, and the
    dependencies of the arpeggiator effect. *)
Definition keeps_voices (h : Pending → Pending) : Prop :=
  ∀ p, nodes (h p).1 = nodes p.1 ∧ voicesRef (h p).1 = voicesRef p.1 ∧
       next_id (h p).1 = next_id p.1 ∧ deps (h p).2 = deps p.2 ∧
       pressedKeys (h p).2 = pressedKeys p.2.

(** A VCA whose last two automation events are those of a note-off. *)
Definition was_released (g : GainNode) : Prop :=
  ∃ pre t1 t2,
    automation (gain g) =
      pre ++ [cancelAndHoldAtTime t1; linearRampToValueAtTime 0 t2].

(** The voice map and the heap of voice nodes fit together: addresses from
    [next_id] on are free; every entry of the voice map is bound to a gain
    node of the heap; no two note names share a VCA; and a gain node that no
    entry is bound to has been sent into its release. *)
Record heap_ok (s : Store) : Prop := mk_heap_ok {
  heap_fresh : ∀ i, (next_id s ≤ i)%nat → nodes s !! i = None;
  voice_is_gain :
    ∀ n v, voicesRef s !! n = Some v → ∃ g, nodes s !! vca v = Some (NGain g);
  voice_own_vca :
    ∀ n1 n2 v1 v2,
      voicesRef s !! n1 = Some v1 → voicesRef s !! n2 = Some v2 →
      vca v1 = vca v2 → n1 = n2;
  unbound_released :
    ∀ i g, nodes s !! i = Some (NGain g) →
      (∃ n, voicesRef s !! n = Some (mkVoice i)) ∨ was_released g;
}.

(** The routing of the LFO gain that goes with the LFO record [l]. *)
Definition lfo_ok (l : LFOParams) (s : Store) : Prop :=
  (l_destination l = "filter" →
     gain_outputs (lfoGainRef s) = [TfilterFrequency]) ∧
  (l_destination l ≠ "filter" →
     ∀ t, t ∈ gain_outputs (lfoGainRef s) →
       ∃ id o, t = Tdetune id ∧ nodes s !! id = Some (NOsc o)).

(** Both, for a fixed LFO record. *)
Definition graph_ok (l : LFOParams) (s : Store) : Prop :=
  heap_ok s ∧ lfo_ok l s.

(** The events of a note-off: a cancel, or a linear ramp to 0. *)
Definition is_note_off_event (e : AutomationEvent) : Prop :=
  match e with
  | cancelAndHoldAtTime _ => True
  | linearRampToValueAtTime v _ => v = 0%float
  | setValueAtTime _ _ => False
  end.

(** From [s] to [s'] every gain node of the heap is still there, and its
    automation has only got note-off events appended. *)
Definition grows (s s' : Store) : Prop :=
  ∀ i g, nodes s !! i = Some (NGain g) →
    ∃ g' offs, nodes s' !! i = Some (NGain g') ∧
      automation (gain g') = automation (gain g) ++ offs ∧
      Forall is_note_off_event offs.

(** What a function on the store has to do to be used by a handler of a
    render whose LFO record is [l]. *)
Definition store_step (l : LFOParams) (f : Store → Store) : Prop :=
  ∀ s, graph_ok l s →
    graph_ok l (f s) ∧ grows s (f s) ∧ envelopeRef (f s) = envelopeRef s.

(** The state setters other than [setLFO] and [setEnvelope]. *)
Definition state_step (f : Render → Render) : Prop :=
  ∀ q, lfo (f q) = lfo q ∧ envelope (f q) = envelope q.

(** A store and a pending state that go with the LFO record [l], as reached
    from [p0] within a handler. *)
Definition ok_from (l : LFOParams) (p0 p : Pending) : Prop :=
  graph_ok l p.1 ∧ lfo p.2 = l ∧ grows p0.1 p.1 ∧
  envelopeRef p.1 = envelopeRef p0.1 ∧ envelope p.2 = envelope p0.2.

(** A handler of a render whose LFO record is [l] keeps the graph in order,
    only appends note-off events to the gain nodes there are, and replaces
    neither the LFO record nor the envelope. *)
Definition preserves (l : LFOParams) (h : Pending → Pending) : Prop :=
  ∀ p0 p, ok_from l p0 p → ok_from l p0 (h p).

(** The graph of a world is in order for the LFO record of its render. *)
Definition world_ok (w : World) : Prop :=
  graph_ok (lfo (render w)) (store w).

(** ** The touch-end handler

    [handleKeyTouchEnd] reads the key from the [data-key] attribute of the
    touched element and calls [stopNote] with the result of the note lookup
    without testing it.  With [undefined] for the note, [stopNote] returns
    when latch is on, and otherwise [destroyOscillator] throws on
    [note.name], before any state update: [None]. *)
Definition handleKeyTouchEnd (T : Tables) (r : Render) (key : string)
  (w : Pending) : option Pending :=
  match KEYS T !! key with
  | None => Some w
  | Some nm =>
      match List.find (λ n, String.eqb (name n) nm) (NOTES T) with
      | Some note => Some (stopNote r note false w)
      | None => if latch (control r) then Some w else None
      end
  end.

(** ** Further notions *)

(** The names of the held notes, in press order. *)
Definition held_names (r : Render) : list string := map name (pressedKeys r).

(** Within a handler, the pending held notes are those of the render, with
    the identity of the render's array, or a newer array. *)
Definition keys_mono (r q : Render) : Prop :=
  (pressedKeys q = pressedKeys r ∧ pressedKeysId q = pressedKeysId r) ∨
  (pressedKeysId r < pressedKeysId q)%nat.

(** What every handler does to the held notes of the pending state. *)
Definition keys_ok (r q : Render) : Prop :=
  (NoDup (held_names r) → NoDup (held_names q)) ∧ keys_mono r q.

(** A handler that leaves the cursor and the control record alone. *)
Definition state_frame (r q : Render) : Prop :=
  keys_ok r q ∧ currentNote q = currentNote r ∧ control q = control r.

(** The cursor goes with the arpeggiator switch. *)
Definition cursor_ok (q : Render) : Prop :=
  (arp (control q) = false → currentNote q = None) ∧
  (arp (control q) = true → is_Some (currentNote q)).

(** The state of the arpeggiator in a world: no note is held twice, the
    cursor is [null] exactly when the arpeggiator is off, and a timeout is
    pending only while the arpeggiator is on and a note is held. *)
Definition arp_state_ok (w : World) : Prop :=
  NoDup (held_names (render w)) ∧
  cursor_ok (render w) ∧
  (arp (control (render w)) = false → arpClock w = None) ∧
  (is_Some (arpClock w) → pressedKeys (render w) ≠ []).

(** Every oscillator of the heap is running and feeds one gain node of the
    heap; every gain node of the heap feeds the filter. *)
Definition chains_ok (s : Store) : Prop :=
  (∀ i o, nodes s !! i = Some (NOsc o) →
     osc_started o = true ∧ osc_stopped o = false ∧
     ∃ idv g, osc_outputs o = [Tnode idv] ∧ nodes s !! idv = Some (NGain g)) ∧
  (∀ i g, nodes s !! i = Some (NGain g) → gain_outputs g = [Tfilter]) ∧
  (∀ i, (i < next_id s)%nat → is_Some (nodes s !! i)).

(** From [s0] to [s] nothing was taken away: the oscillators are as they
    were, the names of the voice map are still bound, and no address was
    given back. *)
Definition nothing_removed (s0 s : Store) : Prop :=
  (∀ i o, nodes s0 !! i = Some (NOsc o) → nodes s !! i = Some (NOsc o)) ∧
  dom (voicesRef s0) ⊆ dom (voicesRef s) ∧
  (next_id s0 ≤ next_id s)%nat.

(** * Properties *)

(** ** What [destroyOscillator] and [createOscillator] change *)

Section Voices.
Implicit Types (s : Store) (r : Render) (note : Note).

Lemma destroyOscillator_absent note s :
  voicesRef s !! name note = None → destroyOscillator note s = s.
Proof. unfold destroyOscillator. by intros ->. Qed.

Lemma destroyOscillator_present note s v :
  voicesRef s !! name note = Some v →
  destroyOscillator note s =
    with_nodes
      (alter (release_ramp (currentTime s)
                (currentTime s + release (envelopeRef s))) (vca v) (nodes s)) s.
Proof. unfold destroyOscillator. by intros ->. Qed.

Lemma destroyOscillator_frame note s :
  let s' := destroyOscillator note s in
  currentTime s' = currentTime s ∧ voicesRef s' = voicesRef s ∧
  next_id s' = next_id s ∧ mainGainRef s' = mainGainRef s ∧
  filterRef s' = filterRef s ∧ delayRef s' = delayRef s ∧
  feedbackRef s' = feedbackRef s ∧ envelopeRef s' = envelopeRef s ∧
  lfoRef s' = lfoRef s ∧ lfoGainRef s' = lfoGainRef s.
Proof.
  unfold destroyOscillator. by destruct (voicesRef s !! name note).
Qed.

Lemma retriggered_frame note s :
  let s' := retriggered note s in
  currentTime s' = currentTime s ∧ voicesRef s' = voicesRef s ∧
  next_id s' = next_id s ∧ mainGainRef s' = mainGainRef s ∧
  filterRef s' = filterRef s ∧ delayRef s' = delayRef s ∧
  feedbackRef s' = feedbackRef s ∧ envelopeRef s' = envelopeRef s ∧
  lfoRef s' = lfoRef s ∧ lfoGainRef s' = lfoGainRef s.
Proof.
  unfold retriggered. destruct (voicesRef s !! name note); [|done].
  apply destroyOscillator_frame.
Qed.

Lemma createOscillator_falsy r note s :
  truthy (frequency note) = false → createOscillator r note s = s.
Proof.
  unfold createOscillator. destruct (frequency note) as [f|]; [|done].
  by intros ->.
Qed.

Lemma createOscillator_truthy r note s f :
  frequency note = Some f → truthy (Some f) = true →
  let n := next_id s in
  let now := currentTime s in
  createOscillator r note s =
    mkStore now
      (<[name note := mkVoice (S (S n))]> (voicesRef s))
      (<[S (S n) := NGain (voice_vca r s)]>
         (<[S n := NOsc (voice_oscillator (osc2 r) f now (S (S n)))]>
            (<[n := NOsc (voice_oscillator (osc1 r) f now (S (S n)))]>
               (nodes (retriggered note s)))))
      (S (S (S n))) (mainGainRef s) (filterRef s) (delayRef s)
      (feedbackRef s) (envelopeRef s) (lfoRef s)
      (mkGain (gain (lfoGainRef s))
         (routed_outputs r n (gain_outputs (lfoGainRef s)))).
Proof.
  intros Hf Ht. unfold createOscillator. rewrite Hf, Ht.
  fold (retriggered note s).
  destruct (retriggered_frame note s)
    as (Hc & Hv & Hn & Hm & Hfi & Hd & Hfe & He & Hl & Hg).
  revert Hc Hv Hn Hm Hfi Hd Hfe He Hl Hg.
  generalize (retriggered note s). intros s0 Hc Hv Hn Hm Hfi Hd Hfe He Hl Hg.
  cbv zeta. unfold route_lfo, routed_outputs.
  destruct (String.eqb (l_destination (lfo r)) "osc1");
    destruct (String.eqb (l_destination (lfo r)) "osc2");
    unfold alloc, with_voices, with_lfoGain, voice_vca;
    cbn [currentTime voicesRef nodes next_id mainGainRef filterRef delayRef
         feedbackRef envelopeRef lfoRef lfoGainRef gain gain_outputs];
    rewrite ?Hc, ?Hv, ?Hn, ?Hm, ?Hfi, ?Hd, ?Hfe, ?He, ?Hl, ?Hg;
    try reflexivity.
  destruct (lfoGainRef s); reflexivity.
Qed.
End Voices.

(** ** Envelope scheduling *)

Section Envelope.
Implicit Types (s : Store) (r : Render) (note : Note).

Lemma createOscillator_vca r note s f :
  frequency note = Some f → truthy (Some f) = true →
  let s' := createOscillator r note s in
  voicesRef s' !! name note = Some (mkVoice (S (S (next_id s)))) ∧
  nodes s' !! S (S (next_id s)) = Some (NGain (voice_vca r s)).
Proof.
  intros Hf Ht. cbv zeta. rewrite (createOscillator_truthy _ _ _ _ Hf Ht).
  simpl. by rewrite !lookup_insert_eq.
Qed.

Lemma voice_vca_automation r s :
  automation (gain (voice_vca r s)) =
    attack_decay (currentTime s) (envelopeRef s) (envelope r).
Proof. reflexivity. Qed.
End Envelope.

Section Setters.
Implicit Types (s : Store) (r : Render) (w : World) (p : Pending).

Ltac keeps_voices_tac :=
  intros [s q]; unfold on_store, on_state; cbn [fst snd];
  repeat case_match; cbn [fst snd]; repeat split; reflexivity.

Lemma handleOsc1Change_keeps o : keeps_voices (handleOsc1Change o).
Proof. unfold handleOsc1Change. keeps_voices_tac. Qed.

Lemma handleOsc2Change_keeps o : keeps_voices (handleOsc2Change o).
Proof. unfold handleOsc2Change. keeps_voices_tac. Qed.

Lemma handleAmpChange_keeps a : keeps_voices (handleAmpChange a).
Proof. unfold handleAmpChange. keeps_voices_tac. Qed.

Lemma handleFilterChange_keeps r f : keeps_voices (handleFilterChange r f).
Proof. unfold handleFilterChange. keeps_voices_tac. Qed.

Lemma handleEnvelopeChange_keeps e : keeps_voices (handleEnvelopeChange e).
Proof. unfold handleEnvelopeChange. keeps_voices_tac. Qed.

Lemma handleDelayChange_keeps r d : keeps_voices (handleDelayChange r d).
Proof. unfold handleDelayChange. keeps_voices_tac. Qed.

Lemma handleLFOChange_keeps r l : keeps_voices (handleLFOChange r l).
Proof. unfold handleLFOChange. keeps_voices_tac. Qed.

Lemma commit_same_deps clock r p :
  deps p.2 = deps r → commit clock r p = Some (mkWorld p.2 p.1 clock).
Proof. intros H. unfold commit. by rewrite bool_decide_eq_true_2. Qed.

(** A parameter setter leaves the voices and their nodes alone, and does
    not run the arpeggiator effect again. *)
Lemma setter_keeps_voices T e w :
  is_setter e = true →
  ∃ w', step T e w = Some w' ∧
    nodes (store w') = nodes (store w) ∧
    voicesRef (store w') = voicesRef (store w) ∧
    next_id (store w') = next_id (store w) ∧
    pressedKeys (render w') = pressedKeys (render w) ∧
    arpClock w' = arpClock w.
Proof.
  destruct w as [r s c].
  assert (∀ h, keeps_voices h →
            ∃ w', commit c r (h (s, r)) = Some w' ∧
              nodes (store w') = nodes s ∧ voicesRef (store w') = voicesRef s ∧
              next_id (store w') = next_id s ∧
              pressedKeys (render w') = pressedKeys r ∧ arpClock w' = c) as H.
  { intros h Hh. destruct (Hh (s, r)) as (H1 & H2 & H3 & H4 & H5).
    rewrite commit_same_deps by exact H4. eexists. split; [reflexivity|].
    cbn [store render arpClock]. auto. }
  destruct e; try discriminate; intros _; unfold step;
    cbn [render store arpClock]; apply H.
  - apply handleOsc1Change_keeps.
  - apply handleOsc2Change_keeps.
  - apply handleAmpChange_keeps.
  - apply handleFilterChange_keeps.
  - apply handleEnvelopeChange_keeps.
  - apply handleDelayChange_keeps.
  - apply handleLFOChange_keeps.
Qed.
End Setters.

Lemma filter_other_names note (l : list Note) :
  (∀ n, n ∈ l → name n ≠ name note) →
  List.filter (λ n, negb (same_name note n)) l = l.
Proof.
  induction l as [|a l IH]; intros H; [done|]. simpl.
  assert (same_name note a = false) as ->.
  { unfold same_name. apply String.eqb_neq, H. left. }
  simpl. f_equal. apply IH. intros n Hn. apply H. by right.
Qed.

(** ** The arpeggiator *)

Section Arp.
Implicit Types (s : Store) (r : Render) (note : Note).

Lemma playArpNote_without_voice r note s :
  truthy (frequency note) = false → voicesRef s !! name note = None →
  playArpNote r note s = None.
Proof.
  intros Hf Hv. unfold playArpNote.
  by rewrite (createOscillator_falsy _ _ _ Hf), Hv.
Qed.

Lemma arp_note_first r :
  currentNote r = None ∨ currentNote r = Some 0 →
  arp_note r = pressedKeys r !! 0.
Proof. unfold arp_note. by intros [-> | ->]. Qed.

Lemma arp_note_cursor r c :
  currentNote r = Some c → arp_note r = pressedKeys r !! c.
Proof. unfold arp_note. intros ->. by destruct c. Qed.
End Arp.

Section ArpClock.
Implicit Types (s : Store) (r : Render) (w : World).

Lemma arp_timeout_cursor r c :
  currentNote r = Some c →
  arp_timeout r =
    setCurrentNote (Some (next_cursor c (length (pressedKeys r)))) r.
Proof.
  unfold arp_timeout, next_cursor. intros ->. rewrite Nat.add_1_r.
  by destruct (S c =? length (pressedKeys r))%nat.
Qed.

(** With at least two held notes the timeout moves the cursor to the next
    note, wrapping to 0 after the last, and the effect runs again: it
    triggers the note under the new cursor and arms the next timeout. *)
Lemma arp_timeout_round_robin T w c d :
  arp (control (render w)) = true → arpClock w = Some d →
  currentNote (render w) = Some c →
  c < length (pressedKeys (render w)) →
  (2 ≤ length (pressedKeys (render w)))%nat →
  let c' := next_cursor c (length (pressedKeys (render w))) in
  let r' := setCurrentNote (Some c') (render w) in
  ∃ n, pressedKeys (render w) !! c' = Some n ∧
       step T Timeout w =
         match playArpNote r' n (store w) with
         | Some s' =>
             Some (mkWorld r' s'
                     (Some ((60 / tempo (control (render w))) * 1000)%float))
         | None => None
         end.
Proof.
  intros Ha Hd Hc Hlt Hlen. cbv zeta.
  set (N := length (pressedKeys (render w))) in *.
  assert (next_cursor c N < N ∧ next_cursor c N ≠ c) as [Hlt' Hne].
  { unfold next_cursor. destruct (Nat.eqb_spec (S c) N); lia. }
  destruct (lookup_lt_is_Some_2 (pressedKeys (render w)) _ Hlt') as [n Hn].
  exists n. split; [exact Hn|].
  unfold step. rewrite Hd, (arp_timeout_cursor _ _ Hc). fold N.
  unfold commit. simpl.
  rewrite bool_decide_eq_false_2.
  2: { unfold deps. simpl. rewrite Hc. intros [= ?]. done. }
  unfold arp_effect. simpl. rewrite Ha.
  assert ((0 <? length (pressedKeys (render w)))%nat = true) as ->.
  { apply Nat.ltb_lt. fold N. lia. }
  simpl.
  rewrite (arp_note_cursor _ (next_cursor c N)) by reflexivity.
  simpl. rewrite Hn. by destruct (playArpNote _ n (store w)).
Qed.

(** With one held note the timeout sets the cursor to the value it has:
    no dependency of the effect changes, the effect does not run again,
    no note is triggered and no timeout is armed. *)
Lemma arp_timeout_single_note T w d n :
  arpClock w = Some d → currentNote (render w) = Some 0 →
  pressedKeys (render w) = [n] →
  step T Timeout w = Some (mkWorld (render w) (store w) None).
Proof.
  intros Hd Hc Hk. unfold step. rewrite Hd, (arp_timeout_cursor _ _ Hc), Hk.
  unfold commit, next_cursor. simpl.
  rewrite bool_decide_eq_true_2.
  2: { unfold deps. simpl. by rewrite Hc. }
  f_equal. f_equal. destruct (render w); simpl in *. by subst.
Qed.
End ArpClock.

(** ** Releasing every held note *)

Section ReleaseAll.
Implicit Types (s : Store) (r p : Render) (note : Note) (l : list Note).

Lemma destroy_all_frame l s :
  currentTime (destroy_all l s) = currentTime s ∧
  voicesRef (destroy_all l s) = voicesRef s ∧
  envelopeRef (destroy_all l s) = envelopeRef s ∧
  next_id (destroy_all l s) = next_id s ∧
  lfoGainRef (destroy_all l s) = lfoGainRef s.
Proof.
  revert s. induction l as [|a l IH]; intros s; [done|]. simpl.
  destruct (IH (destroyOscillator a s)) as (-> & -> & -> & -> & ->).
  destruct (destroyOscillator_frame a s) as (? & ? & ? & _ & _ & _ & _ & ? & _ & ?).
  done.
Qed.

Lemma destroyOscillator_keeps_gain note s i g :
  nodes s !! i = Some (NGain g) →
  ∃ g', nodes (destroyOscillator note s) !! i = Some (NGain g').
Proof.
  intros Hg. unfold destroyOscillator.
  destruct (voicesRef s !! name note) as [v|]; [|by exists g]. simpl.
  destruct (decide (i = vca v)) as [->|Hne].
  - rewrite lookup_alter_eq, Hg. simpl. by eexists.
  - rewrite lookup_alter_ne by done. by exists g.
Qed.

Lemma destroyOscillator_keeps_released note s i :
  released_at (currentTime s) (release (envelopeRef s)) s i →
  released_at (currentTime s) (release (envelopeRef s))
    (destroyOscillator note s) i.
Proof.
  intros (g & pre & Hg & Ha). unfold destroyOscillator.
  destruct (voicesRef s !! name note) as [v|]; [|by exists g, pre]. simpl.
  destruct (decide (i = vca v)) as [->|Hne].
  - eexists _, (automation (gain g)). unfold released_at. simpl.
    rewrite lookup_alter_eq, Hg. simpl. split; [reflexivity|].
    unfold note_off. simpl. by rewrite <- app_assoc.
  - exists g, pre. simpl. by rewrite lookup_alter_ne.
Qed.

Lemma destroyOscillator_releases note s v g :
  voicesRef s !! name note = Some v → nodes s !! vca v = Some (NGain g) →
  released_at (currentTime s) (release (envelopeRef s))
    (destroyOscillator note s) (vca v).
Proof.
  intros Hv Hg. rewrite (destroyOscillator_present _ _ _ Hv).
  eexists _, (automation (gain g)). simpl.
  rewrite lookup_alter_eq, Hg. simpl. split; [reflexivity|].
  unfold note_off. simpl. by rewrite <- app_assoc.
Qed.

Lemma destroy_all_keeps_released l s i :
  released_at (currentTime s) (release (envelopeRef s)) s i →
  released_at (currentTime s) (release (envelopeRef s)) (destroy_all l s) i.
Proof.
  revert s. induction l as [|a l IH]; intros s H; [done|]. simpl.
  destruct (destroyOscillator_frame a s) as (Hc & _ & _ & _ & _ & _ & _ & He & _).
  rewrite <- Hc, <- He. apply IH. rewrite Hc, He.
  by apply destroyOscillator_keeps_released.
Qed.

Lemma destroy_all_releases l s note v g :
  note ∈ l →
  voicesRef s !! name note = Some v → nodes s !! vca v = Some (NGain g) →
  released_at (currentTime s) (release (envelopeRef s))
    (destroy_all l s) (vca v).
Proof.
  revert s g. induction l as [|a l IH]; intros s g Hin Hv Hg.
  { by apply elem_of_nil in Hin. }
  simpl.
  destruct (destroyOscillator_frame a s) as (Hc & Hvo & _ & _ & _ & _ & _ & He & _).
  rewrite <- Hc, <- He.
  apply elem_of_cons in Hin as [<-|Hin].
  - apply destroy_all_keeps_released. rewrite Hc, He.
    by eapply destroyOscillator_releases.
  - destruct (destroyOscillator_keeps_gain a s _ _ Hg) as [g' Hg'].
    eapply IH; [done| by rewrite Hvo |done].
Qed.

(** The forced [stopNote] of every held note, then [setPressedKeys([])]. *)
Lemma stop_all_fold r l (w : Pending) :
  let w' := foldl (λ w note, stopNote r note true w) w l in
  w'.1 = destroy_all l w.1 ∧
  (pressedKeysId w.2 ≤ pressedKeysId w'.2)%nat ∧
  currentNote w'.2 = currentNote w.2 ∧ control w'.2 = control w.2.
Proof.
  revert w. induction l as [|a l IH]; intros w; [simpl; auto|].
  simpl. destruct (IH (stopNote r a true w)) as (-> & Hid & -> & ->).
  unfold stopNote in *. rewrite andb_false_r in *. simpl in *.
  repeat split. lia.
Qed.

Lemma release_all_spec r (w : Pending) :
  (release_all r w).1 = destroy_all (pressedKeys r) w.1 ∧
  pressedKeys (release_all r w).2 = [] ∧
  pressedKeysId w.2 < pressedKeysId (release_all r w).2 ∧
  currentNote (release_all r w).2 = currentNote w.2 ∧
  control (release_all r w).2 = control w.2.
Proof.
  unfold release_all.
  destruct (stop_all_fold r (pressedKeys r) w) as (H1 & H2 & H3 & H4).
  simpl. repeat split; try done. lia.
Qed.
End ReleaseAll.

(** ** The voice map and the heap of voice nodes *)

Section Heap.
Implicit Types (s : Store) (r : Render) (note : Note) (m : gmap nat Node).

Lemma release_ramp_gain t1 t2 g :
  ∃ g', release_ramp t1 t2 (NGain g) = NGain g' ∧ was_released g'.
Proof.
  eexists. split; [reflexivity|]. exists (automation (gain g)), t1, t2.
  simpl. by rewrite <- app_assoc.
Qed.

Lemma alter_release_None m t1 t2 i j :
  m !! j = None → alter (release_ramp t1 t2) i m !! j = None.
Proof.
  intros H. destruct (decide (i = j)) as [->|Hne].
  - by rewrite lookup_alter_eq, H.
  - by rewrite lookup_alter_ne.
Qed.

Lemma alter_release_osc m t1 t2 i j o :
  m !! j = Some (NOsc o) →
  alter (release_ramp t1 t2) i m !! j = Some (NOsc o).
Proof.
  intros H. destruct (decide (i = j)) as [->|Hne].
  - by rewrite lookup_alter_eq, H.
  - by rewrite lookup_alter_ne.
Qed.

Lemma alter_release_gain m t1 t2 i j g :
  m !! j = Some (NGain g) →
  ∃ g', alter (release_ramp t1 t2) i m !! j = Some (NGain g') ∧
        (i = j → was_released g') ∧ (i ≠ j → g' = g).
Proof.
  intros H. destruct (decide (i = j)) as [->|Hne].
  - destruct (release_ramp_gain t1 t2 g) as (g' & Hg' & Hr).
    exists g'. rewrite lookup_alter_eq, H.
    change (Some (release_ramp t1 t2 (NGain g)) = Some (NGain g') ∧
            (j = j → was_released g') ∧ (j ≠ j → g' = g)).
    rewrite Hg'. by auto.
  - exists g. rewrite lookup_alter_ne by done. by auto.
Qed.

Lemma alter_release_gain_inv m t1 t2 i j g' :
  alter (release_ramp t1 t2) i m !! j = Some (NGain g') →
  ∃ g, m !! j = Some (NGain g) ∧ (i = j → was_released g') ∧ (i ≠ j → g' = g).
Proof.
  intros H. destruct (m !! j) as [[o|g]|] eqn:Hm.
  - by rewrite (alter_release_osc _ _ _ _ _ _ Hm) in H.
  - destruct (alter_release_gain _ t1 t2 i _ _ Hm) as (g2 & H2 & Hr & He).
    rewrite H2 in H. injection H as ->. by exists g.
  - by rewrite (alter_release_None _ _ _ _ _ Hm) in H.
Qed.

Lemma heap_ok_alter s t1 t2 i :
  heap_ok s →
  heap_ok (with_nodes (alter (release_ramp t1 t2) i (nodes s)) s).
Proof.
  intros [Hf Hg Ho Hu]. split; cbn [nodes voicesRef next_id with_nodes].
  - intros j Hj. by apply alter_release_None, Hf.
  - intros n v Hv. destruct (Hg n v Hv) as [g Hn].
    destruct (alter_release_gain _ t1 t2 i _ _ Hn) as (g' & H' & _).
    by exists g'.
  - exact Ho.
  - intros j g' Hj.
    destruct (alter_release_gain_inv _ _ _ _ _ _ Hj) as (g & Hn & Hr & He).
    destruct (decide (i = j)) as [Heq|Hne]; [right; by apply Hr|].
    rewrite (He Hne). by eapply Hu.
Qed.

Lemma heap_ok_destroyOscillator note s :
  heap_ok s → heap_ok (destroyOscillator note s).
Proof.
  intros H. unfold destroyOscillator.
  destruct (voicesRef s !! name note); [|done]. by apply heap_ok_alter.
Qed.

(** An address in use is below [next_id]. *)
Lemma heap_ok_used s i n :
  heap_ok s → nodes s !! i = Some n → (i < next_id s)%nat.
Proof.
  intros [Hf _ _ _] Hi. destruct (decide (i < next_id s)%nat); [done|].
  rewrite Hf in Hi by lia. done.
Qed.

(** The nodes of the voice that [createOscillator] replaces: its VCA has
    been sent into its release by the guard. *)
Lemma retriggered_released note s v g :
  heap_ok s → voicesRef s !! name note = Some v →
  nodes (retriggered note s) !! vca v = Some (NGain g) → was_released g.
Proof.
  intros Hs Hv. unfold retriggered. rewrite Hv.
  rewrite (destroyOscillator_present _ _ _ Hv). cbn [nodes with_nodes].
  intros Hg. destruct (alter_release_gain_inv _ _ _ _ _ _ Hg) as (g0 & _ & Hr & _).
  by apply Hr.
Qed.

Lemma heap_ok_retriggered note s : heap_ok s → heap_ok (retriggered note s).
Proof.
  intros H. unfold retriggered. destruct (voicesRef s !! name note); [|done].
  by apply heap_ok_destroyOscillator.
Qed.
End Heap.

Section HeapCreate.
Implicit Types (s : Store) (r : Render) (note : Note).

Lemma heap_ok_createOscillator r note s :
  heap_ok s → heap_ok (createOscillator r note s).
Proof.
  intros Hs. destruct (truthy (frequency note)) eqn:Ht.
  2: by rewrite createOscillator_falsy.
  destruct (frequency note) as [f|] eqn:Hf; [|done].
  rewrite (createOscillator_truthy r note s f Hf Ht). cbv zeta.
  pose proof (heap_ok_retriggered note s Hs) as Hs0.
  destruct (retriggered_frame note s) as (_ & Hv0 & Hn0 & _).
  assert (∀ i, (next_id s ≤ i)%nat → nodes (retriggered note s) !! i = None)
    as Hfresh.
  { intros i Hi. apply (heap_fresh _ Hs0). by rewrite Hn0. }
  assert (∀ i x, nodes (retriggered note s) !! i = Some x →
                 (i < next_id s)%nat) as Hold.
  { intros i x Hi. rewrite <- Hn0. by eapply heap_ok_used. }
  split; cbn [nodes voicesRef next_id].
  - intros i Hi. rewrite !lookup_insert_ne by lia. apply Hfresh. lia.
  - intros nm v Hv. destruct (decide (name note = nm)) as [<-|Hne].
    + rewrite lookup_insert_eq in Hv. injection Hv as <-. cbn [vca].
      rewrite lookup_insert_eq. by eexists.
    + rewrite lookup_insert_ne in Hv by done.
      destruct (voice_is_gain _ Hs0 nm v) as [g Hg]; [by rewrite Hv0|].
      exists g. pose proof (Hold _ _ Hg). by rewrite !lookup_insert_ne by lia.
  - intros n1 n2 v1 v2 H1 H2 Heq.
    destruct (decide (name note = n1)) as [<-|Hne1],
             (decide (name note = n2)) as [<-|Hne2]; try done.
    + rewrite lookup_insert_eq in H1. rewrite lookup_insert_ne in H2 by done.
      injection H1 as <-. cbn [vca] in Heq.
      destruct (voice_is_gain _ Hs0 n2 v2) as [g Hg]; [by rewrite Hv0|].
      pose proof (Hold _ _ Hg). lia.
    + rewrite lookup_insert_eq in H2. rewrite lookup_insert_ne in H1 by done.
      injection H2 as <-. cbn [vca] in Heq.
      destruct (voice_is_gain _ Hs0 n1 v1) as [g Hg]; [by rewrite Hv0|].
      pose proof (Hold _ _ Hg). lia.
    + rewrite lookup_insert_ne in H1, H2 by done.
      by eapply (voice_own_vca _ Hs).
  - intros i g Hi.
    destruct (decide (i = S (S (next_id s)))) as [->|Hn2].
    { left. exists (name note). by rewrite lookup_insert_eq. }
    rewrite lookup_insert_ne in Hi by done.
    destruct (decide (i = S (next_id s))) as [->|Hn1].
    { by rewrite lookup_insert_eq in Hi. }
    rewrite lookup_insert_ne in Hi by done.
    destruct (decide (i = next_id s)) as [->|Hn].
    { by rewrite lookup_insert_eq in Hi. }
    rewrite lookup_insert_ne in Hi by done.
    destruct (unbound_released _ Hs0 i g Hi) as [[nm Hnm]|Hr]; [|by right].
    rewrite Hv0 in Hnm.
    destruct (decide (name note = nm)) as [<-|Hne].
    + right. by eapply (retriggered_released note s (mkVoice i)).
    + left. exists nm. by rewrite lookup_insert_ne.
Qed.

Lemma heap_ok_playArpNote r note s s' :
  heap_ok s → playArpNote r note s = Some s' → heap_ok s'.
Proof.
  intros Hs. unfold playArpNote.
  pose proof (heap_ok_createOscillator r note s Hs) as Hc.
  destruct (voicesRef (createOscillator r note s) !! name note); [|done].
  intros [= <-]. by apply heap_ok_alter.
Qed.

Lemma heap_ok_initial : heap_ok initial_store.
Proof.
  split; cbn [nodes voicesRef next_id initial_store].
  - intros i _. apply lookup_empty.
  - intros n v H. by rewrite lookup_empty in H.
  - intros n1 n2 v1 v2 H. by rewrite lookup_empty in H.
  - intros i g H. by rewrite lookup_empty in H.
Qed.
End HeapCreate.

(** ** The routing of the LFO gain *)

Section Routing.
Implicit Types (s : Store) (r : Render) (note : Note) (l : LFOParams).

Lemma elem_of_connect (t x : Target) (outs : list Target) :
  t ∈ connect x outs → t = x ∨ t ∈ outs.
Proof.
  unfold connect. case_bool_decide; [by right|].
  rewrite elem_of_app, list_elem_of_singleton. tauto.
Qed.

Lemma routed_outputs_filter r n outs :
  l_destination (lfo r) = "filter" → routed_outputs r n outs = outs.
Proof. unfold routed_outputs. by intros ->. Qed.

Lemma elem_of_routed_outputs r n outs t :
  t ∈ routed_outputs r n outs →
  t = Tdetune n ∨ t = Tdetune (S n) ∨ t ∈ outs.
Proof.
  unfold routed_outputs.
  destruct (String.eqb (l_destination (lfo r)) "osc1"),
           (String.eqb (l_destination (lfo r)) "osc2"); intros H;
    repeat (apply elem_of_connect in H as [H|H]); auto.
Qed.

Lemma retriggered_osc note s i o :
  nodes s !! i = Some (NOsc o) →
  nodes (retriggered note s) !! i = Some (NOsc o).
Proof.
  intros H. unfold retriggered, destroyOscillator.
  destruct (voicesRef s !! name note); [|done].
  cbn [nodes with_nodes]. by apply alter_release_osc.
Qed.

Lemma graph_ok_ext l s s' :
  nodes s' = nodes s → voicesRef s' = voicesRef s → next_id s' = next_id s →
  gain_outputs (lfoGainRef s') = gain_outputs (lfoGainRef s) →
  graph_ok l s → graph_ok l s'.
Proof.
  intros Hn Hv Hi Hg [[H1 H2 H3 H4] [H5 H6]]. split; [split|split].
  - intros i. rewrite Hn, Hi. apply H1.
  - intros n v. rewrite Hn, Hv. apply H2.
  - intros n1 n2 v1 v2. rewrite Hv. apply H3.
  - intros i g. rewrite Hn, Hv. apply H4.
  - rewrite Hg. apply H5.
  - rewrite Hg, Hn. apply H6.
Qed.

Lemma graph_ok_alter l s t1 t2 i :
  graph_ok l s →
  graph_ok l (with_nodes (alter (release_ramp t1 t2) i (nodes s)) s).
Proof.
  intros [Hh [H5 H6]]. split; [by apply heap_ok_alter|].
  split; cbn [lfoGainRef nodes with_nodes]; [exact H5|].
  intros Hne t Ht. destruct (H6 Hne t Ht) as (id & o & -> & Ho).
  exists id, o. split; [done|]. by apply alter_release_osc.
Qed.

Lemma graph_ok_destroyOscillator l note s :
  graph_ok l s → graph_ok l (destroyOscillator note s).
Proof.
  intros H. unfold destroyOscillator.
  destruct (voicesRef s !! name note); [|done]. by apply graph_ok_alter.
Qed.

Lemma graph_ok_createOscillator r note s :
  graph_ok (lfo r) s → graph_ok (lfo r) (createOscillator r note s).
Proof.
  intros [Hh [H5 H6]]. split; [by apply heap_ok_createOscillator|].
  destruct (truthy (frequency note)) eqn:Ht.
  2: by rewrite createOscillator_falsy.
  destruct (frequency note) as [f|] eqn:Hf; [|done].
  rewrite (createOscillator_truthy r note s f Hf Ht). cbv zeta.
  split; cbn [lfoGainRef nodes gain_outputs].
  - intros Hd. rewrite routed_outputs_filter by done. by apply H5.
  - intros Hd t Ht'.
    apply elem_of_routed_outputs in Ht' as [->|[->|Ht']].
    + eexists _, _. split; [done|].
      rewrite !lookup_insert_ne by lia. by rewrite lookup_insert_eq.
    + eexists _, _. split; [done|].
      rewrite lookup_insert_ne by lia. by rewrite lookup_insert_eq.
    + destruct (H6 Hd t Ht') as (id & o & -> & Ho).
      exists id, o. split; [done|].
      pose proof (heap_ok_used _ _ _ Hh Ho).
      rewrite !lookup_insert_ne by lia. by apply retriggered_osc.
Qed.

Lemma graph_ok_playArpNote r note s s' :
  graph_ok (lfo r) s → playArpNote r note s = Some s' → graph_ok (lfo r) s'.
Proof.
  intros Hs. unfold playArpNote.
  pose proof (graph_ok_createOscillator r note s Hs) as Hc.
  destruct (voicesRef (createOscillator r note s) !! name note); [|done].
  intros [= <-]. by apply graph_ok_alter.
Qed.

Lemma graph_ok_destroy_all l (keys : list Note) s :
  graph_ok l s → graph_ok l (destroy_all keys s).
Proof.
  revert s. induction keys as [|a keys IH]; intros s H; [done|].
  apply IH. by apply graph_ok_destroyOscillator.
Qed.

Lemma graph_ok_create_all r (keys : list Note) s :
  graph_ok (lfo r) s →
  graph_ok (lfo r) (foldl (λ s note, createOscillator r note s) s keys).
Proof.
  revert s. induction keys as [|a keys IH]; intros s H; [done|].
  apply IH. by apply graph_ok_createOscillator.
Qed.

Lemma graph_ok_initial : graph_ok DEFAULTS.lfo initial_store.
Proof.
  split; [apply heap_ok_initial|]. split; [done|].
  intros H. by destruct H.
Qed.
End Routing.

(** ** What happens to the nodes there are *)

Section Grows.
Implicit Types (s : Store) (r : Render) (note : Note) (l : LFOParams).

Lemma grows_refl s : grows s s.
Proof.
  intros i g Hg. exists g, []. by rewrite app_nil_r.
Qed.

Lemma grows_trans s1 s2 s3 : grows s1 s2 → grows s2 s3 → grows s1 s3.
Proof.
  intros H12 H23 i g Hg.
  destruct (H12 i g Hg) as (g2 & o2 & Hg2 & Ha2 & Ho2).
  destruct (H23 i g2 Hg2) as (g3 & o3 & Hg3 & Ha3 & Ho3).
  exists g3, (o2 ++ o3). split; [done|]. split.
  - by rewrite Ha3, Ha2, app_assoc.
  - by apply Forall_app.
Qed.

Lemma grows_ext s s' : nodes s' = nodes s → grows s s'.
Proof. intros H i g Hg. exists g, []. by rewrite H, app_nil_r. Qed.

Lemma grows_alter s t1 t2 i :
  grows s (with_nodes (alter (release_ramp t1 t2) i (nodes s)) s).
Proof.
  intros j g Hg. cbn [nodes with_nodes].
  destruct (decide (i = j)) as [->|Hne].
  - rewrite lookup_alter_eq, Hg.
    eexists _, [cancelAndHoldAtTime t1; linearRampToValueAtTime 0 t2].
    split; [reflexivity|]. split.
    + cbn [release_ramp gain automation schedule]. by rewrite <- app_assoc.
    + by repeat constructor.
  - exists g, []. by rewrite lookup_alter_ne, app_nil_r.
Qed.

Lemma grows_destroyOscillator note s : grows s (destroyOscillator note s).
Proof.
  unfold destroyOscillator.
  destruct (voicesRef s !! name note); [apply grows_alter|apply grows_refl].
Qed.

Lemma grows_createOscillator r note s :
  heap_ok s → grows s (createOscillator r note s).
Proof.
  intros Hh. destruct (truthy (frequency note)) eqn:Ht.
  2: { rewrite createOscillator_falsy by done. apply grows_refl. }
  destruct (frequency note) as [f|] eqn:Hf; [|done].
  rewrite (createOscillator_truthy r note s f Hf Ht). cbv zeta.
  intros i g Hg. pose proof (heap_ok_used _ _ _ Hh Hg) as Hlt.
  cbn [nodes]. rewrite !lookup_insert_ne by lia.
  unfold retriggered.
  destruct (voicesRef s !! name note) eqn:Hv; [|by apply grows_refl].
  by apply grows_destroyOscillator.
Qed.

Lemma createOscillator_envelopeRef r note s :
  envelopeRef (createOscillator r note s) = envelopeRef s.
Proof.
  destruct (truthy (frequency note)) eqn:Ht.
  2: by rewrite createOscillator_falsy.
  destruct (frequency note) as [f|] eqn:Hf; [|done].
  by rewrite (createOscillator_truthy r note s f Hf Ht).
Qed.

Lemma store_step_destroyOscillator l note :
  store_step l (destroyOscillator note).
Proof.
  intros s Hg. split; [by apply graph_ok_destroyOscillator|].
  split; [apply grows_destroyOscillator|].
  by destruct (destroyOscillator_frame note s) as (_&_&_&_&_&_&_&?&_).
Qed.

Lemma store_step_createOscillator r note :
  store_step (lfo r) (createOscillator r note).
Proof.
  intros s Hg. split; [by apply graph_ok_createOscillator|].
  split; [apply grows_createOscillator, Hg|apply createOscillator_envelopeRef].
Qed.

Lemma store_step_foldl {A} l (f : A → Store → Store) (xs : list A) :
  (∀ x, store_step l (f x)) →
  store_step l (λ s, foldl (λ s x, f x s) s xs).
Proof.
  intros Hf. induction xs as [|x xs IH]; intros s Hg; cbn [foldl].
  { split; [done|]. split; [apply grows_refl|done]. }
  destruct (Hf x s Hg) as (Hg1 & Hgr1 & He1).
  destruct (IH _ Hg1) as (Hg2 & Hgr2 & He2).
  split; [done|]. split; [by eapply grows_trans|by rewrite He2].
Qed.

Lemma playArpNote_step r note s s' :
  graph_ok (lfo r) s → playArpNote r note s = Some s' →
  graph_ok (lfo r) s' ∧ grows s s' ∧ envelopeRef s' = envelopeRef s.
Proof.
  intros Hg Hp. split; [by eapply graph_ok_playArpNote|].
  revert Hp. unfold playArpNote.
  destruct (voicesRef (createOscillator r note s) !! name note); [|done].
  intros [= <-]. split.
  - eapply grows_trans; [apply grows_createOscillator, Hg|apply grows_alter].
  - cbn [envelopeRef with_nodes]. apply createOscillator_envelopeRef.
Qed.
End Grows.

(** ** Every handler keeps the graph in order *)

Section Handlers.
Implicit Types (s : Store) (r : Render) (note : Note) (l : LFOParams)
  (p : Pending).

Lemma ok_from_refl l p : graph_ok l p.1 → lfo p.2 = l → ok_from l p p.
Proof. intros Hg Hl. split; [done|]. split; [done|]. split; [apply grows_refl|done]. Qed.

Lemma ok_on_store l (f : Store → Store) p0 p :
  store_step l f → ok_from l p0 p → ok_from l p0 (on_store f p).
Proof.
  intros Hf (Hg & Hl & Hgr & He & He2).
  destruct (Hf _ Hg) as (Hg' & Hgr' & He').
  split; [done|]. split; [done|]. split; [by eapply grows_trans|].
  split; [|done]. cbn [on_store fst]. by rewrite He'.
Qed.

Lemma ok_on_state l (f : Render → Render) p0 p :
  state_step f → ok_from l p0 p → ok_from l p0 (on_state f p).
Proof.
  intros Hf (Hg & Hl & Hgr & He & He2). destruct (Hf p.2) as [Hl' He'].
  split; [done|]. cbn [on_state fst snd].
  split; [by rewrite Hl'|]. split; [done|]. split; [done|by rewrite He'].
Qed.

Lemma ok_foldl {A} l (f : Pending → A → Pending) (xs : list A) p0 p :
  (∀ x q, ok_from l p0 q → ok_from l p0 (f q x)) →
  ok_from l p0 p → ok_from l p0 (foldl f p xs).
Proof.
  intros Hf. revert p. induction xs as [|x xs IH]; intros p Hp; [done|].
  cbn [foldl]. by apply IH, Hf.
Qed.

Ltac ok_tac :=
  repeat first
    [ assumption
    | match goal with |- ok_from _ _ (if ?b then _ else _) => destruct b end
    | apply ok_on_state; [by intros ?|]
    | apply ok_on_store;
      [ first [ apply store_step_destroyOscillator
              | apply store_step_createOscillator
              | apply (store_step_foldl _ (λ note, destroyOscillator note));
                intros ?; apply store_step_destroyOscillator
              | apply (store_step_foldl _ (createOscillator _));
                intros ?; apply store_step_createOscillator ] |] ].

Lemma preserves_stopNote r note force l : preserves l (stopNote r note force).
Proof. intros p0 p Hp. unfold stopNote. cbv zeta. ok_tac. Qed.

Lemma preserves_playNote r note : preserves (lfo r) (playNote r note).
Proof.
  intros p0 p Hp. unfold playNote. cbv zeta.
  assert (ok_from (lfo r) p0
            (if latch (control r) &&
                bool_decide (is_Some (find (same_name note) (pressedKeys r)))
             then stopNote r note true p else p)) as Hp'.
  { destruct (_ && _); [by apply preserves_stopNote|done]. }
  revert Hp'. generalize (if latch (control r) &&
                bool_decide (is_Some (find (same_name note) (pressedKeys r)))
             then stopNote r note true p else p). clear p Hp.
  intros p Hp. ok_tac.
Qed.

Lemma preserves_release_all r l : preserves l (release_all r).
Proof.
  intros p0 p Hp. unfold release_all. cbv zeta.
  apply ok_on_state; [by intros ?|]. apply ok_foldl; [|done].
  intros x q. apply preserves_stopNote.
Qed.

Lemma preserves_handleControlChange r c :
  preserves (lfo r) (handleControlChange r c).
Proof.
  intros p0 p Hp. unfold handleControlChange. cbv zeta.
  assert (ok_from (lfo r) p0
            (if negb (Bool.eqb (latch (control r)) (latch c)) && negb (latch c)
             then release_all r p else p)) as Hp'.
  { destruct (_ && _); [by apply preserves_release_all|done]. }
  revert Hp'. generalize (if negb (Bool.eqb (latch (control r)) (latch c))
                             && negb (latch c)
                          then release_all r p else p). clear p Hp.
  intros p Hp. ok_tac.
Qed.

Lemma preserves_handleKeyDown T r key shiftKey :
  preserves (lfo r) (handleKeyDown T r key shiftKey).
Proof.
  intros p0 p Hp. unfold handleKeyDown.
  destruct (String.eqb key "Escape"); [by apply preserves_release_all|].
  destruct (String.eqb key "M" && shiftKey); [ok_tac|].
  destruct (lookup_note T key); [by apply preserves_playNote|done].
Qed.

Lemma preserves_handleKeyUp T r key l : preserves l (handleKeyUp T r key).
Proof.
  intros p0 p Hp. unfold handleKeyUp.
  destruct (lookup_note T key); [by apply preserves_stopNote|done].
Qed.

Ltac preserves_setter :=
  intros p0 [s q] (Hg & Hl & Hgr & He & He2);
  unfold on_store, on_state; cbn [fst snd] in *;
  repeat case_match; cbn [fst snd];
  (split; [eapply graph_ok_ext; [..|exact Hg]; reflexivity |]);
  (split; [exact Hl|]); (split; [exact Hgr|]); (split; [exact He|exact He2]).

Lemma preserves_handleOsc1Change o l : preserves l (handleOsc1Change o).
Proof. unfold handleOsc1Change. preserves_setter. Qed.

Lemma preserves_handleOsc2Change o l : preserves l (handleOsc2Change o).
Proof. unfold handleOsc2Change. preserves_setter. Qed.

Lemma preserves_handleAmpChange a l : preserves l (handleAmpChange a).
Proof. unfold handleAmpChange. preserves_setter. Qed.

Lemma preserves_handleFilterChange r f l :
  preserves l (handleFilterChange r f).
Proof. unfold handleFilterChange. preserves_setter. Qed.

Lemma preserves_handleDelayChange r d l :
  preserves l (handleDelayChange r d).
Proof. unfold handleDelayChange. preserves_setter. Qed.
End Handlers.

Section LFOChange.
Implicit Types (s : Store) (r : Render) (l : LFOParams) (p : Pending).

(** What [handleLFOChange] leaves alone, and the outputs of the LFO gain
    after it. *)
Lemma handleLFOChange_outputs r newLFO p :
  let p' := handleLFOChange r newLFO p in
  nodes p'.1 = nodes p.1 ∧ voicesRef p'.1 = voicesRef p.1 ∧
  next_id p'.1 = next_id p.1 ∧ envelopeRef p'.1 = envelopeRef p.1 ∧
  lfo p'.2 = newLFO ∧ envelope p'.2 = envelope p.2 ∧
  deps p'.2 = deps p.2 ∧
  gain_outputs (lfoGainRef p'.1) =
    if String.eqb (l_destination (lfo r)) (l_destination newLFO)
    then gain_outputs (lfoGainRef p.1)
    else if String.eqb (l_destination newLFO) "filter"
         then [TfilterFrequency] else [].
Proof.
  destruct p as [s q]. unfold handleLFOChange, on_store, on_state.
  cbv zeta. cbn [fst snd].
  destruct (String.eqb (l_destination (lfo r)) (l_destination newLFO));
    cbn [negb fst snd];
    [|destruct (String.eqb (l_destination newLFO) "filter")];
    cbn [fst snd]; repeat case_match; repeat split; reflexivity.
Qed.

Lemma heap_ok_ext s s' :
  nodes s' = nodes s → voicesRef s' = voicesRef s → next_id s' = next_id s →
  heap_ok s → heap_ok s'.
Proof.
  intros Hn Hv Hi [H1 H2 H3 H4]. split.
  - intros i. rewrite Hn, Hi. apply H1.
  - intros n v. rewrite Hn, Hv. apply H2.
  - intros n1 n2 v1 v2. rewrite Hv. apply H3.
  - intros i g. rewrite Hn, Hv. apply H4.
Qed.

Lemma handleLFOChange_ok r newLFO p :
  graph_ok (lfo r) p.1 → graph_ok newLFO (handleLFOChange r newLFO p).1.
Proof.
  intros [Hh [H5 H6]].
  destruct (handleLFOChange_outputs r newLFO p)
    as (Hn & Hv & Hi & _ & _ & _ & _ & Ho).
  split; [by eapply heap_ok_ext|].
  unfold lfo_ok. rewrite Ho, Hn.
  destruct (String.eqb_spec (l_destination (lfo r)) (l_destination newLFO))
    as [Heq|Hne].
  - rewrite <- Heq. by split.
  - destruct (String.eqb_spec (l_destination newLFO) "filter") as [Hf|Hf].
    + split; [done|]. by intros ?.
    + split; [by intros ?|]. intros _ t Ht. by apply elem_of_nil in Ht.
Qed.
End LFOChange.

(** ** Every world the component can be in *)

Section Reachable.
Implicit Types (s : Store) (r : Render) (l : LFOParams) (p : Pending)
  (w : World).

Lemma commit_ok clock r p w' :
  graph_ok (lfo p.2) p.1 → commit clock r p = Some w' →
  world_ok w' ∧ grows p.1 (store w') ∧
  envelopeRef (store w') = envelopeRef p.1 ∧ render w' = p.2.
Proof.
  intros Hg. unfold commit, world_ok.
  assert (∀ c, let w := mkWorld p.2 p.1 c in
               graph_ok (lfo (render w)) (store w) ∧ grows p.1 (store w) ∧
               envelopeRef (store w) = envelopeRef p.1 ∧ render w = p.2)
    as Hsame.
  { intros c. cbn [render store]. split; [done|]. split; [apply grows_refl|done]. }
  case_bool_decide. { intros [= <-]. apply Hsame. }
  unfold arp_effect.
  destruct (arp (control p.2) && (0 <? length (pressedKeys p.2))%nat).
  2: { intros [= <-]. apply Hsame. }
  destruct (arp_note p.2) as [note|].
  2: { intros [= <-]. apply Hsame. }
  destruct (playArpNote p.2 note p.1) as [s'|] eqn:Hp; [|done].
  intros [= <-]. cbn [render store].
  destruct (playArpNote_step _ _ _ _ Hg Hp) as (? & ? & ?). done.
Qed.

(** One event keeps the graph in order, only appends note-off events to the
    gain nodes there are, and keeps the envelope of the state and the
    envelope ref equal. *)
Lemma step_ok T e w w' :
  world_ok w → step T e w = Some w' →
  world_ok w' ∧ grows (store w) (store w') ∧
  (envelope (render w) = envelopeRef (store w) →
   envelope (render w') = envelopeRef (store w')).
Proof.
  destruct w as [r s clock]. unfold world_ok at 1. cbn [render store].
  intros Hg.
  assert (∀ p, graph_ok (lfo p.2) p.1 → grows s p.1 →
            (envelope r = envelopeRef s → envelope p.2 = envelopeRef p.1) →
            ∀ c, commit c r p = Some w' →
            world_ok w' ∧ grows s (store w') ∧
            (envelope r = envelopeRef s →
             envelope (render w') = envelopeRef (store w'))) as Hcommit.
  { intros p Hgp Hgr He c Hc.
    destruct (commit_ok _ _ _ _ Hgp Hc) as (Hw & Hgr' & He' & Hr).
    split; [done|]. split; [by eapply grows_trans|].
    intros Hsync. rewrite Hr, He'. by apply He. }
  assert (∀ h, preserves (lfo r) h →
            commit clock r (h (s, r)) = Some w' →
            world_ok w' ∧ grows s (store w') ∧
            (envelope r = envelopeRef s →
             envelope (render w') = envelopeRef (store w'))) as Hstep.
  { intros h Hh.
    destruct (Hh (s, r) (s, r) (ok_from_refl _ (s, r) Hg eq_refl))
      as (Hg' & Hl' & Hgr & He & He2).
    apply Hcommit; [by rewrite Hl'|done|].
    cbn [fst snd] in *. intros Hsync. by rewrite He, He2. }
  destruct e; unfold step; cbn [render store arpClock].
  - apply Hstep, preserves_handleKeyDown.
  - apply Hstep, preserves_handleKeyUp.
  - apply Hstep, preserves_handleOsc1Change.
  - apply Hstep, preserves_handleOsc2Change.
  - apply Hstep, preserves_handleAmpChange.
  - apply Hstep, preserves_handleFilterChange.
  - apply Hcommit.
    + eapply graph_ok_ext; [..|exact Hg]; reflexivity.
    + by apply grows_ext.
    + done.
  - apply Hstep, preserves_handleDelayChange.
  - apply Hstep, preserves_handleControlChange.
  - destruct (handleLFOChange_outputs r newLFO (s, r))
      as (Hn & _ & _ & He & Hl & He2 & _).
    apply Hcommit.
    + rewrite Hl. by apply handleLFOChange_ok.
    + by apply grows_ext.
    + intros Hsync. by rewrite He, He2.
  - apply (Hstep (on_store (createOscillator r note))).
    intros p0 p. apply ok_on_store, store_step_createOscillator.
  - apply (Hstep (on_store (destroyOscillator note))).
    intros p0 p. apply ok_on_store, store_step_destroyOscillator.
  - destruct clock.
    2: { intros [= <-]. split; [done|]. split; [apply grows_refl|done]. }
    apply Hcommit; cbn [fst snd].
    + unfold arp_timeout. by case_match.
    + apply grows_refl.
    + unfold arp_timeout. by case_match.
  - intros [= <-]. unfold world_ok. cbn [render store].
    split; [eapply graph_ok_ext; [..|exact Hg]; reflexivity|].
    split; [by apply grows_ext|done].
Qed.

Lemma run_ok T es w w' :
  world_ok w → run T es w = Some w' →
  world_ok w' ∧ grows (store w) (store w').
Proof.
  revert w. induction es as [|e es IH]; intros w Hw; cbn [run].
  { intros [= <-]. split; [done|apply grows_refl]. }
  destruct (step T e w) as [w1|] eqn:Hs; [|done].
  destruct (step_ok _ _ _ _ Hw Hs) as (Hw1 & Hgr & _).
  intros Hr. destruct (IH _ Hw1 Hr) as [Hw' Hgr'].
  split; [done|by eapply grows_trans].
Qed.

(** In every world the component can be in, the voice map, the heap of
    voice nodes and the routing of the LFO gain are in order, and the
    envelope of the state is the one of the envelope ref. *)
Lemma reachable_world_ok T w :
  reachable T w → world_ok w ∧ envelope (render w) = envelopeRef (store w).
Proof.
  induction 1 as [|e w w' _ [IHw IHe] Hs].
  { split; [apply graph_ok_initial|done]. }
  destruct (step_ok _ _ _ _ IHw Hs) as (Hw & _ & He). auto.
Qed.

Lemma run_reachable T es w w' :
  reachable T w → run T es w = Some w' → reachable T w'.
Proof.
  revert w. induction es as [|e es IH]; intros w Hw; cbn [run].
  - by intros [= <-].
  - destruct (step T e w) as [w1|] eqn:Hs; [|done].
    apply IH. by eapply reachable_step.
Qed.
End Reachable.

Section NewEdges.
Implicit Types (s : Store) (r : Render) (l : LFOParams).

Lemma connect_fresh (x : Target) (outs : list Target) :
  x ∉ outs → connect x outs = outs ++ [x].
Proof. intros H. unfold connect. by rewrite bool_decide_eq_false_2. Qed.

Lemma detune_fresh l s k :
  graph_ok l s → l_destination l ≠ "filter" → (next_id s ≤ k)%nat →
  Tdetune k ∉ gain_outputs (lfoGainRef s).
Proof.
  intros [Hh [_ H6]] Hne Hk Hin.
  destruct (H6 Hne _ Hin) as (id & o & [= <-] & Ho).
  pose proof (heap_ok_used _ _ _ Hh Ho). lia.
Qed.

(** The outputs of the LFO gain after a voice was created. *)
Lemma createOscillator_outputs r note s f :
  graph_ok (lfo r) s →
  frequency note = Some f → truthy (Some f) = true →
  gain_outputs (lfoGainRef (createOscillator r note s)) =
    if String.eqb (l_destination (lfo r)) "osc1"
    then gain_outputs (lfoGainRef s) ++ [Tdetune (next_id s)]
    else if String.eqb (l_destination (lfo r)) "osc2"
         then gain_outputs (lfoGainRef s) ++ [Tdetune (S (next_id s))]
         else gain_outputs (lfoGainRef s).
Proof.
  intros Hg Hf Ht. rewrite (createOscillator_truthy r note s f Hf Ht).
  cbv zeta. cbn [lfoGainRef gain_outputs]. unfold routed_outputs.
  destruct (String.eqb_spec (l_destination (lfo r)) "osc1") as [H1|H1].
  - rewrite H1. cbn [String.eqb Ascii.eqb Bool.eqb].
    apply connect_fresh. eapply detune_fresh; [done| |done].
    by rewrite H1.
  - destruct (String.eqb_spec (l_destination (lfo r)) "osc2") as [H2|H2];
      [|done].
    apply connect_fresh. eapply detune_fresh; [done| |lia].
    by rewrite H2.
Qed.
End NewEdges.

(** * Main results *)

(** C1. In every world the component can be in, the voice map binds a note
    name to at most one voice: every entry is bound to a gain node of the
    heap, no two names share a VCA, and a gain node that no entry is bound
    to has been sent into its release.  In particular [createOscillator],
    for a note that has a voice, first sends the VCA of that voice into its
    release ([destroyOscillator]: cancel at the current time, linear ramp to
    0 over the current release), then binds the name to a new VCA in place
    of the old one: the voice map has the same names as before. *)
Theorem one_voice_per_note_name T w :
  reachable T w →
  heap_ok (store w) ∧
  ∀ r note f v,
    frequency note = Some f → truthy (Some f) = true →
    voicesRef (store w) !! name note = Some v →
    let s := store w in
    let s' := createOscillator r note s in
    released_at (currentTime s) (release (envelopeRef s)) s' (vca v) ∧
    voicesRef s' = <[name note := mkVoice (S (S (next_id s)))]> (voicesRef s) ∧
    vca v ≠ S (S (next_id s)) ∧
    dom (voicesRef s') = dom (voicesRef s).
Proof.
  intros Hw. destruct (reachable_world_ok T w Hw) as [[Hh _] _].
  split; [exact Hh|]. intros r note f v Hf Ht Hv. cbv zeta.
  destruct (voice_is_gain _ Hh _ _ Hv) as [g Hg].
  pose proof (heap_ok_used _ _ _ Hh Hg) as Hlt.
  rewrite (createOscillator_truthy r note (store w) f Hf Ht). cbv zeta.
  cbn [voicesRef]. split; [|split; [done|split; [lia|]]].
  - destruct (destroyOscillator_releases note (store w) v g Hv Hg)
      as (g' & pre & Hg' & Ha).
    exists g', pre. split; [|exact Ha]. cbn [nodes].
    rewrite !lookup_insert_ne by lia. unfold retriggered. by rewrite Hv.
  - apply dom_insert_lookup_L. by rewrite Hv.
Qed.

Lemma one_voice_per_note_name_example :
  ∃ w, run Ex.tables [KeyDown "a" false] initial_world = Some w ∧
       let s' := createOscillator (render w) Ex.C4 (store w) in
       voicesRef s' !! "C4" = Some (mkVoice 5) ∧ released_at 0 0 s' 2.
Proof.
  pose (w := mkWorld (setPressedKeys [Ex.C4] initial_render)
               (createOscillator initial_render Ex.C4 initial_store) None).
  assert (run Ex.tables [KeyDown "a" false] initial_world = Some w) as Hrun.
  { vm_compute. reflexivity. }
  destruct (one_voice_per_note_name Ex.tables w
              (run_reachable _ _ _ _ (reachable_initial _) Hrun))
    as [_ H].
  destruct (H (render w) Ex.C4 261.63%float (mkVoice 2) eq_refl eq_refl eq_refl)
    as (Hr & Hv & _).
  exists w. split; [exact Hrun|]. cbv zeta. split; [|exact Hr].
  rewrite Hv. apply lookup_insert_eq.
Defined.

(** C2, as stated, fails. Routed to the first oscillator, the LFO gain has
    no outgoing connection until a voice is created, and then one for every
    voice created. *)
Lemma lfo_gain_edges_when_routed_to_oscillator :
  match run Ex.tables [LFOChange (mkLFO 1 0 "osc1" "triangle")]
          initial_world with
  | Some w => gain_outputs (lfoGainRef (store w)) = []
  | None => False
  end ∧
  match run Ex.tables
          [LFOChange (mkLFO 1 0 "osc1" "triangle");
           NotePlayed Ex.C4; NotePlayed Ex.D4]
          initial_world with
  | Some w => gain_outputs (lfoGainRef (store w)) = [Tdetune 0; Tdetune 3]
  | None => False
  end.
Proof. vm_compute. split; reflexivity. Qed.

(** C2, amended. In every world the component can be in: when the routing
    target is the filter, the LFO gain has exactly one outgoing connection,
    to the frequency of the filter; for any other target its outgoing
    connections all go to detune inputs of oscillators of voices.  A change
    of the target drops every old connection before connecting: afterwards
    the only connection is the one to the filter when the new target is the
    filter, and there is none otherwise.  A voice creation adds one
    connection, to the detune input of the new first (second) oscillator,
    when the target is the first (second) oscillator, and none otherwise. *)
Theorem lfo_gain_routing T w :
  reachable T w →
  let outs := gain_outputs (lfoGainRef (store w)) in
  let target := l_destination (lfo (render w)) in
  (target = "filter" → outs = [TfilterFrequency]) ∧
  (target ≠ "filter" →
     ∀ t, t ∈ outs →
       ∃ id o, t = Tdetune id ∧ nodes (store w) !! id = Some (NOsc o)) ∧
  (∀ newLFO,
     target ≠ l_destination newLFO →
     ∃ w', step T (LFOChange newLFO) w = Some w' ∧
           lfo (render w') = newLFO ∧
           gain_outputs (lfoGainRef (store w')) =
             if String.eqb (l_destination newLFO) "filter"
             then [TfilterFrequency] else []) ∧
  (∀ note f,
     frequency note = Some f → truthy (Some f) = true →
     gain_outputs (lfoGainRef (createOscillator (render w) note (store w))) =
       if String.eqb target "osc1"
       then outs ++ [Tdetune (next_id (store w))]
       else if String.eqb target "osc2"
            then outs ++ [Tdetune (S (next_id (store w)))]
            else outs).
Proof.
  intros Hw. destruct (reachable_world_ok T w Hw) as [Hg _].
  pose proof Hg as [_ [H5 H6]].
  cbv zeta. split; [exact H5|]. split; [exact H6|]. split.
  - intros newLFO Hne. destruct w as [r s clock]. unfold step.
    cbn [render store arpClock] in *.
    destruct (handleLFOChange_outputs r newLFO (s, r))
      as (_ & _ & _ & _ & Hl & _ & Hd & Ho).
    rewrite commit_same_deps by exact Hd.
    eexists. split; [reflexivity|]. cbn [render store].
    split; [exact Hl|]. rewrite Ho.
    by apply String.eqb_neq in Hne as ->.
  - intros note f Hf Ht. by apply (createOscillator_outputs _ _ _ f).
Qed.

Lemma lfo_gain_routing_example :
  gain_outputs (lfoGainRef (store initial_world)) = [TfilterFrequency] ∧
  ∃ w', step Ex.tables (LFOChange (mkLFO 1 0 "osc2" "sine")) initial_world
          = Some w' ∧
        gain_outputs (lfoGainRef (store w')) = [].
Proof.
  destruct (lfo_gain_routing Ex.tables initial_world (reachable_initial _))
    as (H1 & _ & H3 & _).
  split; [exact (H1 eq_refl)|].
  destruct (H3 (mkLFO 1 0 "osc2" "sine") ltac:(discriminate))
    as (w' & Hs & _ & Ho).
  exists w'. split; [exact Hs | exact Ho].
Defined.

(** C3. A voice created while the release was [r1], released after the
    envelope record was replaced by one with release [r2], gets its release
    ramp from the envelope in effect at the note-off: after the attack and
    decay events, a cancel at the time [t] of the note-off and a linear ramp
    to 0 ending at [t + r2]. *)
Theorem destroyOscillator_uses_live_release r note s f e2 t :
  frequency note = Some f → truthy (Some f) = true →
  let s1 := createOscillator r note s in
  let w2 := handleEnvelopeChange e2 (s1, r) in
  let s3 := destroyOscillator note (with_currentTime t w2.1) in
  ∃ g, nodes s3 !! S (S (next_id s)) = Some (NGain g) ∧
       automation (gain g) =
         attack_decay (currentTime s) (envelopeRef s) (envelope r) ++
         [ cancelAndHoldAtTime t; linearRampToValueAtTime 0 (t + release e2) ].
Proof.
  intros Hf Ht. cbv zeta.
  destruct (createOscillator_vca r note s f Hf Ht) as [Hv Hn].
  set (s1 := createOscillator r note s) in *.
  unfold destroyOscillator. simpl. rewrite Hv. simpl.
  rewrite lookup_alter_eq, Hn. simpl.
  eexists. split; reflexivity.
Qed.

Lemma destroyOscillator_uses_live_release_example :
  ∃ g, nodes (destroyOscillator Ex.A4
                (with_currentTime 3
                   (handleEnvelopeChange Ex.env_long
                      (createOscillator Ex.with_env.2 Ex.A4 Ex.with_env.1,
                       Ex.with_env.2)).1)) !! 2 = Some (NGain g) ∧
       automation (gain g) =
         [ setValueAtTime 0 0;
           linearRampToValueAtTime 0.1 0.1;
           linearRampToValueAtTime 0.2 0.6;
           cancelAndHoldAtTime 3;
           linearRampToValueAtTime 0 5 ].
Proof.
  destruct (destroyOscillator_uses_live_release Ex.with_env.2 Ex.A4
              Ex.with_env.1 440 Ex.env_long 3 eq_refl eq_refl)
    as (g & Hg & Ha).
  exists g. split; [exact Hg | exact Ha].
Defined.

(** C4, at a failing input. One key is held with the arpeggiator on: the
    first tick triggers its note.  When the timeout fires the cursor is set
    from 0 to 0, so the effect, which depends on the cursor, does not run
    again: the store is unchanged, no timeout is armed, and firing the
    clock again changes nothing.  The second tick, which should retrigger
    the note, never comes. *)
Theorem arp_single_note_stalls :
  match run Ex.tables
          [ControlChange (mkControl 90 false true); KeyDown "a" false]
          initial_world with
  | Some w1 =>
      pressedKeys (render w1) = [Ex.C4] ∧
      currentNote (render w1) = Some 0 ∧
      voicesRef (store w1) !! "C4" = Some (mkVoice 2) ∧
      arpClock w1 ≠ None ∧
      let w2 := mkWorld (render w1) (store w1) None in
      step Ex.tables Timeout w1 = Some w2 ∧
      step Ex.tables Timeout w2 = Some w2
  | None => False
  end.
Proof. vm_compute. repeat split; discriminate. Qed.

(** C5, as stated, fails. Two keys are held with the arpeggiator on, the
    cursor reaches 1, the second key is released: the cursor is out of
    range for the one note still held, and the tick that follows selects no
    note, where index 0 holds one; it leaves the store as it is and arms
    the timeout. *)
Lemma arp_tick_out_of_range_selects_nothing :
  match run Ex.tables
          [ControlChange (mkControl 90 false true); KeyDown "a" false;
           KeyDown "s" false; Timeout; KeyUp "s"]
          initial_world with
  | Some w =>
      pressedKeys (render w) = [Ex.C4] ∧
      currentNote (render w) = Some 1 ∧
      arp (control (render w)) = true ∧
      pressedKeys (render w) !! 0 = Some Ex.C4 ∧
      arp_note (render w) = None ∧
      arp_effect (render w) (store w) = Some (store w, arpClock w)
  | None => False
  end.
Proof. vm_compute. repeat split. Qed.

(** C5, amended. On a tick with a held note, index 0 is selected when the
    cursor is [null] or 0, the note under the cursor when the cursor is in
    range, and then that note is triggered; when the cursor is out of range
    no note is selected, the guard of the effect skips the trigger, the
    store is unchanged and the timeout is armed all the same. *)
Theorem arp_tick_selection r s :
  arp (control r) = true → pressedKeys r ≠ [] →
  let delay_ms := ((60 / tempo (control r)) * 1000)%float in
  (currentNote r = None ∨ currentNote r = Some 0 →
     ∃ n, pressedKeys r !! 0 = Some n ∧ arp_note r = Some n) ∧
  (∀ c, currentNote r = Some c → c < length (pressedKeys r) →
     ∃ n, pressedKeys r !! c = Some n ∧ arp_note r = Some n) ∧
  (∀ n, arp_note r = Some n →
     arp_effect r s =
       match playArpNote r n s with
       | Some s' => Some (s', Some delay_ms)
       | None => None
       end) ∧
  (∀ c, currentNote r = Some c → (length (pressedKeys r) ≤ c)%nat →
     arp_note r = None ∧ arp_effect r s = Some (s, Some delay_ms)).
Proof.
  intros Ha Hk. cbv zeta.
  assert ((0 <? length (pressedKeys r))%nat = true) as Hlen.
  { apply Nat.ltb_lt. destruct (pressedKeys r); [done|simpl; lia]. }
  split; [|split; [|split]].
  - intros Hc. rewrite (arp_note_first _ Hc).
    destruct (pressedKeys r) as [|n l]; [done|]. by exists n.
  - intros c Hc Hlt. rewrite (arp_note_cursor _ _ Hc).
    destruct (lookup_lt_is_Some_2 (pressedKeys r) c Hlt) as [n Hn]. by exists n.
  - intros n Hn. unfold arp_effect. by rewrite Ha, Hlen, Hn.
  - intros c Hc Hge. rewrite (arp_note_cursor _ _ Hc).
    assert (arp_note r = None) as Hnone.
    { rewrite (arp_note_cursor _ _ Hc). by apply lookup_ge_None_2. }
    split; [by apply lookup_ge_None_2|].
    unfold arp_effect. by rewrite Ha, Hlen, Hnone.
Qed.

Lemma arp_tick_selection_example :
  let r := setControl (mkControl 90 false true)
             (setCurrentNote (Some 1)
                (setPressedKeys [Ex.C4; Ex.D4] initial_render)) in
  arp_note r = Some Ex.D4.
Proof.
  cbv zeta.
  destruct (arp_tick_selection
              (setControl (mkControl 90 false true)
                 (setCurrentNote (Some 1)
                    (setPressedKeys [Ex.C4; Ex.D4] initial_render)))
              initial_store eq_refl ltac:(discriminate))
    as (_ & H & _).
  destruct (H 1 eq_refl ltac:(simpl; lia)) as (n & Hn & Hs).
  rewrite Hs. exact (eq_sym Hn).
Defined.

(** C6. In every world the component can be in, for a note with a usable
    frequency, [createOscillator] registers a new VCA whose gain automation
    is exactly three events: value 0 at the current time, a linear ramp to
    the constant 0.1 ending at the current time plus the attack, and a
    linear ramp to the sustain level ending at the current time plus attack
    plus decay.  Whatever events follow, the automation of that VCA stays
    these three events followed by note-off events only (cancels and linear
    ramps to 0); a parameter setter leaves the nodes as they are. *)
Theorem createOscillator_schedules_attack_decay T w note f :
  reachable T w → frequency note = Some f → truthy (Some f) = true →
  let s := store w in
  let s' := createOscillator (render w) note s in
  let now := currentTime s in
  let id := S (S (next_id s)) in
  let three_points :=
    [ setValueAtTime 0 now;
      linearRampToValueAtTime 0.1 (now + attack (envelopeRef s));
      linearRampToValueAtTime (sustain (envelopeRef s))
        (now + attack (envelopeRef s) + decay (envelopeRef s)) ] in
  voicesRef s' !! name note = Some (mkVoice id) ∧
  nodes s !! id = None ∧
  (∃ g, nodes s' !! id = Some (NGain g) ∧
        automation (gain g) = three_points) ∧
  (∀ es w', run T es (mkWorld (render w) s' (arpClock w)) = Some w' →
     ∃ g' offs, nodes (store w') !! id = Some (NGain g') ∧
                automation (gain g') = three_points ++ offs ∧
                Forall is_note_off_event offs) ∧
  (∀ e, is_setter e = true →
     ∃ w', step T e (mkWorld (render w) s' (arpClock w)) = Some w' ∧
           nodes (store w') = nodes s').
Proof.
  intros Hw Hf Ht. cbv zeta.
  destruct (reachable_world_ok T w Hw) as [Hg Hsync].
  destruct (createOscillator_vca (render w) note (store w) f Hf Ht)
    as [Hv Hn].
  pose proof (voice_vca_automation (render w) (store w)) as Ha.
  unfold attack_decay in Ha. rewrite Hsync in Ha.
  split; [exact Hv|]. split.
  { apply (heap_fresh _ (proj1 Hg)). lia. }
  split. { exists (voice_vca (render w) (store w)). by split. }
  split.
  - intros es w' Hrun.
    assert (world_ok (mkWorld (render w)
              (createOscillator (render w) note (store w)) (arpClock w)))
      as Hw1 by (by apply graph_ok_createOscillator).
    destruct (run_ok _ _ _ _ Hw1 Hrun) as [_ Hgr].
    destruct (Hgr _ _ Hn) as (g' & offs & Hg' & Ha' & Ho).
    exists g', offs. split; [exact Hg'|]. split; [|exact Ho].
    by rewrite Ha', Ha.
  - intros e He.
    destruct (setter_keeps_voices T e
                (mkWorld (render w)
                   (createOscillator (render w) note (store w)) (arpClock w))
                He) as (w' & Hs & Hn' & _).
    exists w'. auto.
Qed.

(** The example of the specification: attack 0.1 s, decay 0.5 s, sustain 0.2,
    note-on at time 0 give ramp ends at 0.1 and at 0.6. *)
Lemma createOscillator_schedules_attack_decay_example :
  ∃ w, step Ex.tables (EnvelopeChange Ex.env) initial_world = Some w ∧
  ∃ g, nodes (createOscillator (render w) Ex.A4 (store w)) !! 2
         = Some (NGain g) ∧
       automation (gain g) =
         [ setValueAtTime 0 0;
           linearRampToValueAtTime 0.1 0.1;
           linearRampToValueAtTime 0.2 0.6 ].
Proof.
  pose (w := mkWorld Ex.with_env.2 Ex.with_env.1 None).
  assert (step Ex.tables (EnvelopeChange Ex.env) initial_world = Some w)
    as Hstep by reflexivity.
  destruct (createOscillator_schedules_attack_decay Ex.tables w Ex.A4 440
              (reachable_step _ _ _ _ (reachable_initial _) Hstep)
              eq_refl eq_refl)
    as (_ & _ & (g & Hg & Ha) & _).
  exists w. split; [exact Hstep|]. exists g. split; [exact Hg | exact Ha].
Defined.

(** C7. When latch is on and a control change turns it off, every event of
    that kind runs to completion: the held notes of the next render are
    empty, no timeout is armed, the voice map keeps its entries, and the VCA
    of every note that was held and had a voice ends its automation with the
    note-off events at the current time with the current release, whatever
    the latch was. *)
Theorem latch_off_releases_every_held_note T w c :
  latch (control (render w)) = true → latch c = false →
  ∃ w', step T (ControlChange c) w = Some w' ∧
        pressedKeys (render w') = [] ∧
        control (render w') = c ∧
        arpClock w' = None ∧
        voicesRef (store w') = voicesRef (store w) ∧
        ∀ note v g,
          note ∈ pressedKeys (render w) →
          voicesRef (store w) !! name note = Some v →
          nodes (store w) !! vca v = Some (NGain g) →
          released_at (currentTime (store w))
            (release (envelopeRef (store w))) (store w') (vca v).
Proof.
  destruct w as [r s clock]. simpl. intros Hl Hc.
  unfold step, handleControlChange. simpl. rewrite Hl, Hc. simpl.
  destruct (release_all_spec r (s, r)) as (H1 & H2 & H3 & H4 & H5).
  destruct (release_all r (s, r)) as [s1 p1]. simpl in *. subst s1.
  destruct (destroy_all_frame (pressedKeys r) s) as (Ht & Hv & He & _).
  assert (∀ p s', pressedKeys p = [] → pressedKeysId r < pressedKeysId p →
            commit clock r (s', p) = Some (mkWorld p s' None)) as Hcommit.
  { intros p s' Hp Hid. unfold commit. simpl.
    rewrite bool_decide_eq_false_2.
    2: { unfold deps. intros [= ? ? ?]. lia. }
    unfold arp_effect. rewrite Hp. simpl. by rewrite andb_false_r. }
  destruct (arp c) eqn:Hac, (arp (control r)) eqn:Har; simpl;
    unfold on_state, on_store; cbn [fst snd];
    fold (destroy_all (pressedKeys r) (destroy_all (pressedKeys r) s));
    (rewrite Hcommit by (simpl; assumption));
    eexists; (split; [reflexivity|]); simpl;
    (split; [assumption|]); (split; [reflexivity|]); (split; [reflexivity|]).
  - split; [assumption|]. intros note v g Hin Hvo Hg.
    by eapply destroy_all_releases.
  - destruct (destroy_all_frame (pressedKeys r) (destroy_all (pressedKeys r) s))
      as (Ht' & Hv' & He' & _).
    split; [by rewrite Hv'|]. intros note v g Hin Hvo Hg.
    rewrite <- Ht, <- He. apply destroy_all_keeps_released.
    rewrite Ht, He. by eapply destroy_all_releases.
  - split; [assumption|]. intros note v g Hin Hvo Hg.
    by eapply destroy_all_releases.
  - split; [assumption|]. intros note v g Hin Hvo Hg.
    by eapply destroy_all_releases.
Qed.

Lemma latch_off_releases_every_held_note_example :
  ∃ w', run Ex.tables
          [ControlChange (mkControl 90 true false); KeyDown "a" false;
           KeyDown "s" false; ControlChange (mkControl 90 false false)]
          initial_world = Some w' ∧
        pressedKeys (render w') = [] ∧
        released_at 0 0 (store w') 2 ∧ released_at 0 0 (store w') 5.
Proof.
  pose (w := mkWorld
    (setControl (mkControl 90 true false)
       (setPressedKeys [Ex.C4; Ex.D4]
          (setPressedKeys [Ex.C4]
             (setControl (mkControl 90 true false) initial_render))))
    (createOscillator initial_render Ex.D4
       (createOscillator initial_render Ex.C4 initial_store))
    None).
  destruct (latch_off_releases_every_held_note Ex.tables w
              (mkControl 90 false false) eq_refl eq_refl)
    as (w' & Hs & Hk & _ & _ & _ & Hr).
  exists w'. split.
  - rewrite <- Hs. vm_compute. reflexivity.
  - split; [exact Hk|]. split.
    + refine (Hr Ex.C4 (mkVoice 2) _ _ eq_refl _).
      * apply list_elem_of_In. simpl. auto.
      * vm_compute. reflexivity.
    + refine (Hr Ex.D4 (mkVoice 5) _ _ eq_refl _).
      * apply list_elem_of_In. simpl. auto.
      * vm_compute. reflexivity.
Defined.

(** C8, as stated, fails: a voice stays registered after its note-off, so a
    second note-off for the same note finds it and schedules two more
    events on its VCA. *)
Lemma second_note_off_reschedules :
  let s1 := createOscillator Ex.with_env.2 Ex.A4 Ex.with_env.1 in
  let s2 := destroyOscillator Ex.A4 s1 in
  nodes (destroyOscillator Ex.A4 s2) !! 2 ≠ nodes s2 !! 2.
Proof. vm_compute. discriminate. Qed.

(** C8, amended. A note-off for a note without an entry in the voice map
    does nothing to the store: no automation is scheduled, the voice map
    and every node are unchanged.  [stopNote] then only filters the note
    out of the held notes, which leaves them as they are when the note is
    not held. *)
Theorem note_off_without_voice r note force s (p : Render) :
  voicesRef s !! name note = None →
  destroyOscillator note s = s ∧
  (stopNote r note force (s, p)).1 = s ∧
  ((∀ n, n ∈ pressedKeys r → name n ≠ name note) →
   pressedKeys (stopNote r note force (s, r)).2 = pressedKeys r).
Proof.
  intros Hv. pose proof (destroyOscillator_absent _ _ Hv) as Hd.
  split; [exact Hd|]. unfold stopNote, on_store, on_state. split.
  - destruct (latch (control r) && negb force); simpl; [done|exact Hd].
  - intros Hn. destruct (latch (control r) && negb force); simpl; [done|].
    by apply filter_other_names.
Qed.

Lemma note_off_without_voice_example :
  destroyOscillator Ex.A4 initial_store = initial_store ∧
  (stopNote initial_render Ex.A4 false (initial_store, initial_render)).1
    = initial_store.
Proof.
  destruct (note_off_without_voice initial_render Ex.A4 false initial_store
              initial_render eq_refl) as (H1 & H2 & _).
  split; [exact H1 | exact H2].
Defined.

(** C9, at a failing input. With the arpeggiator on, a key whose note has no
    frequency is pressed: the effect selects the note, [createOscillator]
    returns without registering a voice, and [playArpNote] throws on reading
    the voice back.  [destroyOscillator] has the guard that [playArpNote]
    lacks: for the same note it returns the store as it is. *)
Theorem playArpNote_throws_on_note_without_voice :
  run Ex.tables
    [ControlChange (mkControl 90 false true); KeyDown "x" false]
    initial_world = None ∧
  playArpNote initial_render Ex.X initial_store = None ∧
  destroyOscillator Ex.X initial_store = initial_store.
Proof. vm_compute. auto. Qed.

(** C10. For a note with a registered voice, [destroyOscillator] only
    appends the two note-off events to the gain of that voice's VCA: the
    voice map keeps its entries, every other node of the heap (the two
    oscillators of the voice among them) is left as it is, no node is added
    or removed, and the shared nodes, the envelope and the pending React
    state (with the held notes) are unchanged. *)
Theorem destroyOscillator_touches_only_its_vca note s v (p : Render) :
  voicesRef s !! name note = Some v →
  let s' := destroyOscillator note s in
  voicesRef s' = voicesRef s ∧
  (∀ g, nodes s !! vca v = Some (NGain g) →
     nodes s' !! vca v =
       Some (NGain (mkGain
         (mkParam (value (gain g))
            (automation (gain g) ++
               note_off (currentTime s) (release (envelopeRef s))))
         (gain_outputs g)))) ∧
  (∀ i, i ≠ vca v → nodes s' !! i = nodes s !! i) ∧
  (∀ i o, nodes s !! i = Some (NOsc o) → nodes s' !! i = Some (NOsc o)) ∧
  dom (nodes s') = dom (nodes s) ∧
  next_id s' = next_id s ∧ currentTime s' = currentTime s ∧
  mainGainRef s' = mainGainRef s ∧ filterRef s' = filterRef s ∧
  delayRef s' = delayRef s ∧ feedbackRef s' = feedbackRef s ∧
  lfoRef s' = lfoRef s ∧ lfoGainRef s' = lfoGainRef s ∧
  envelopeRef s' = envelopeRef s ∧
  (on_store (destroyOscillator note) (s, p)).2 = p.
Proof.
  intros Hv. cbv zeta. rewrite (destroyOscillator_present _ _ _ Hv). simpl.
  split; [reflexivity|]. split.
  { intros g Hg. rewrite lookup_alter_eq, Hg. simpl.
    unfold schedule, note_off. simpl. by rewrite <- app_assoc. }
  split. { intros i Hi. by rewrite lookup_alter_ne. }
  split.
  { intros i o Hi. destruct (decide (i = vca v)) as [->|Hne].
    - by rewrite lookup_alter_eq, Hi.
    - by rewrite lookup_alter_ne. }
  split. { apply dom_alter_L. }
  repeat split; reflexivity.
Qed.

Lemma destroyOscillator_touches_only_its_vca_example :
  let s := createOscillator Ex.with_env.2 Ex.A4 Ex.with_env.1 in
  voicesRef (destroyOscillator Ex.A4 s) = voicesRef s ∧
  nodes (destroyOscillator Ex.A4 s) !! 0 = nodes s !! 0 ∧
  nodes (destroyOscillator Ex.A4 s) !! 1 = nodes s !! 1.
Proof.
  cbv zeta.
  destruct (destroyOscillator_touches_only_its_vca Ex.A4
              (createOscillator Ex.with_env.2 Ex.A4 Ex.with_env.1)
              (mkVoice 2) initial_render eq_refl)
    as (Hv & _ & Hi & _).
  split; [exact Hv|]. split; apply Hi; discriminate.
Defined.

(** * Further properties *)

(** ** Store invariants, once for all handlers

    A property of the store that survives a note-off on any node, a voice
    creation, and any change that leaves the heap, the voice map and the
    allocation counter alone, holds in every world the component can be
    in. *)

Section StoreInvariant.
Variable P : Store → Prop.
Hypothesis P_alter :
  ∀ s t1 t2 i, P s → P (with_nodes (alter (release_ramp t1 t2) i (nodes s)) s).
Hypothesis P_create : ∀ r note s, P s → P (createOscillator r note s).
Hypothesis P_ext :
  ∀ s s', nodes s' = nodes s → voicesRef s' = voicesRef s →
          next_id s' = next_id s → P s → P s'.

Implicit Types (s : Store) (r : Render) (note : Note) (p : Pending).

Lemma inv_destroyOscillator note s : P s → P (destroyOscillator note s).
Proof.
  intros H. unfold destroyOscillator.
  destruct (voicesRef s !! name note); [by apply P_alter|done].
Qed.

Lemma inv_playArpNote r note s s' :
  P s → playArpNote r note s = Some s' → P s'.
Proof.
  intros H. unfold playArpNote.
  destruct (voicesRef (createOscillator r note s) !! name note); [|done].
  intros [= <-]. by apply P_alter, P_create.
Qed.

Lemma inv_on_store (f : Store → Store) p :
  (∀ s, P s → P (f s)) → P p.1 → P (on_store f p).1.
Proof. intros Hf H. by apply Hf. Qed.

Lemma inv_on_state (f : Render → Render) p : P p.1 → P (on_state f p).1.
Proof. done. Qed.

Lemma inv_foldl_store {A} (f : A → Store → Store) (xs : list A) s :
  (∀ x s, P s → P (f x s)) → P s → P (foldl (λ s x, f x s) s xs).
Proof.
  intros Hf. revert s. induction xs as [|x xs IH]; intros s H; [done|].
  cbn [foldl]. by apply IH, Hf.
Qed.

Lemma inv_foldl {A} (f : Pending → A → Pending) (xs : list A) p :
  (∀ x q, P q.1 → P (f q x).1) → P p.1 → P (foldl f p xs).1.
Proof.
  intros Hf. revert p. induction xs as [|x xs IH]; intros p H; [done|].
  cbn [foldl]. by apply IH, Hf.
Qed.

Ltac inv_tac :=
  repeat first
    [ assumption
    | match goal with |- P (if ?b then _ else _).1 => destruct b end
    | apply inv_on_state
    | apply inv_on_store;
      [ first [ intros ?; apply inv_destroyOscillator
              | intros ?; apply P_create
              | intros ? ?; apply inv_foldl_store; [|assumption];
                intros ? ?; first [apply inv_destroyOscillator | apply P_create] ] |] ].

Lemma inv_stopNote r note force p : P p.1 → P (stopNote r note force p).1.
Proof. intros H. unfold stopNote. cbv zeta. inv_tac. Qed.

Lemma inv_release_all r p : P p.1 → P (release_all r p).1.
Proof.
  intros H. unfold release_all. cbv zeta. apply inv_on_state.
  apply inv_foldl; [|done]. intros x q. apply inv_stopNote.
Qed.

Lemma inv_playNote r note p : P p.1 → P (playNote r note p).1.
Proof.
  intros H. unfold playNote. cbv zeta.
  destruct (latch (control r)), (bool_decide _); cbn [andb];
    inv_tac; by apply inv_stopNote.
Qed.

Lemma inv_handleControlChange r c p :
  P p.1 → P (handleControlChange r c p).1.
Proof.
  intros H. unfold handleControlChange. cbv zeta.
  pose proof (inv_release_all r p H) as H'.
  destruct (latch (control r)), (latch c), (arp c), (arp (control r));
    cbn [negb Bool.eqb andb]; inv_tac.
Qed.

Lemma inv_handleKeyDown T r key shiftKey p :
  P p.1 → P (handleKeyDown T r key shiftKey p).1.
Proof.
  intros H. unfold handleKeyDown.
  destruct (String.eqb key "Escape"); [by apply inv_release_all|].
  destruct (String.eqb key "M" && shiftKey); [done|].
  destruct (lookup_note T key); [by apply inv_playNote|done].
Qed.

Lemma inv_handleKeyUp T r key p : P p.1 → P (handleKeyUp T r key p).1.
Proof.
  intros H. unfold handleKeyUp.
  destruct (lookup_note T key); [by apply inv_stopNote|done].
Qed.

Ltac inv_setter :=
  intros [s q] H; unfold on_store, on_state; cbn [fst snd] in *;
  repeat case_match; cbn [fst snd];
  (eapply P_ext; [..|exact H]; reflexivity).

Lemma inv_handleAmpChange a p : P p.1 → P (handleAmpChange a p).1.
Proof. revert p. unfold handleAmpChange. inv_setter. Qed.

Lemma inv_handleFilterChange r f p : P p.1 → P (handleFilterChange r f p).1.
Proof. revert p. unfold handleFilterChange. inv_setter. Qed.

Lemma inv_handleEnvelopeChange e p : P p.1 → P (handleEnvelopeChange e p).1.
Proof. revert p. unfold handleEnvelopeChange. inv_setter. Qed.

Lemma inv_handleDelayChange r d p : P p.1 → P (handleDelayChange r d p).1.
Proof. revert p. unfold handleDelayChange. inv_setter. Qed.

Lemma inv_handleLFOChange r l p : P p.1 → P (handleLFOChange r l p).1.
Proof.
  intros H.
  destruct (handleLFOChange_outputs r l p) as (Hn & Hv & Hi & _).
  by eapply P_ext.
Qed.

Lemma inv_commit clock r p w' :
  P p.1 → commit clock r p = Some w' → P (store w').
Proof.
  intros H. unfold commit. case_bool_decide. { by intros [= <-]. }
  unfold arp_effect.
  destruct (arp (control p.2) && (0 <? length (pressedKeys p.2))%nat).
  2: by intros [= <-].
  destruct (arp_note p.2) as [note|]. 2: by intros [= <-].
  destruct (playArpNote p.2 note p.1) as [s'|] eqn:Hp; [|done].
  intros [= <-]. by eapply inv_playArpNote.
Qed.

Lemma inv_step T e w w' : P (store w) → step T e w = Some w' → P (store w').
Proof.
  destruct w as [r s clock]. cbn [store]. intros H.
  destruct e; unfold step; cbn [render store arpClock];
    try (apply inv_commit).
  - by apply inv_handleKeyDown.
  - by apply inv_handleKeyUp.
  - done.
  - done.
  - by apply inv_handleAmpChange.
  - by apply inv_handleFilterChange.
  - by apply inv_handleEnvelopeChange.
  - by apply inv_handleDelayChange.
  - by apply inv_handleControlChange.
  - by apply inv_handleLFOChange.
  - by apply P_create.
  - by apply inv_destroyOscillator.
  - destruct clock; [|by intros [= <-]]. by apply inv_commit.
  - intros [= <-]. cbn [store]. by apply (P_ext s).
Qed.

Lemma inv_run T es w w' : P (store w) → run T es w = Some w' → P (store w').
Proof.
  revert w. induction es as [|e es IH]; intros w H; cbn [run].
  { by intros [= <-]. }
  destruct (step T e w) as [w1|] eqn:Hs; [|done].
  apply IH. by eapply inv_step.
Qed.
End StoreInvariant.

(** ** The held notes, the cursor and the timeout *)

Section HeldNotes.
Implicit Types (s : Store) (r q : Render) (note : Note) (p : Pending).

Lemma keys_mono_id r q : keys_mono r q → (pressedKeysId r ≤ pressedKeysId q)%nat.
Proof. intros [[_ ->]|H]; lia. Qed.

Lemma state_frame_refl r : state_frame r r.
Proof. split; [|done]. split; [done|]. by left. Qed.

Lemma NoDup_names_filter (f : Note → bool) (l : list Note) :
  NoDup (map name l) → NoDup (map name (List.filter f l)).
Proof.
  induction l as [|a l IH]; [done|]. cbn [map List.filter].
  intros [Ha Hl]%NoDup_cons. destruct (f a); [|by apply IH].
  cbn [map]. apply NoDup_cons. split; [|by apply IH].
  intros Hin. apply Ha. apply list_elem_of_In, in_map_iff in Hin.
  destruct Hin as (x & Hx & Hin). apply filter_In in Hin as [Hin _].
  apply list_elem_of_In, in_map_iff. by exists x.
Qed.

Lemma NoDup_names_snoc (l : list Note) note :
  NoDup (map name l) → List.find (same_name note) l = None →
  NoDup (map name (l ++ [note])).
Proof.
  intros Hl Hf. rewrite map_app. apply NoDup_app. split; [done|].
  split; [|apply NoDup_singleton].
  intros x Hx Hx'. apply list_elem_of_In in Hx'. cbn in Hx'.
  destruct Hx' as [<-|[]].
  apply list_elem_of_In, in_map_iff in Hx. destruct Hx as (n & Hn & Hin).
  pose proof (find_none _ _ Hf n Hin) as Hne. unfold same_name in Hne.
  apply String.eqb_neq in Hne. done.
Qed.

Lemma state_frame_setPressedKeys r q (l : list Note) :
  state_frame r q →
  (NoDup (held_names r) → NoDup (map name l)) →
  state_frame r (setPressedKeys l q).
Proof.
  intros [[_ Hm] [Hc Hk]] Hl. split; [|done]. split; [exact Hl|].
  right. cbn [setPressedKeys pressedKeysId]. pose proof (keys_mono_id _ _ Hm).
  lia.
Qed.

Lemma state_frame_stopNote r note force p :
  state_frame r p.2 → state_frame r (stopNote r note force p).2.
Proof.
  intros H. unfold stopNote.
  destruct (latch (control r) && negb force); [done|].
  cbn [on_state on_store fst snd]. apply state_frame_setPressedKeys; [done|].
  apply NoDup_names_filter.
Qed.

Lemma state_frame_release_all r p :
  state_frame r p.2 → state_frame r (release_all r p).2.
Proof.
  intros H. unfold release_all. cbn [on_state snd].
  apply state_frame_setPressedKeys; [|intros _; constructor].
  revert p H. induction (pressedKeys r) as [|a l IH]; intros p H; [done|].
  cbn [foldl]. apply IH. by apply state_frame_stopNote.
Qed.

Lemma state_frame_playNote r note p :
  state_frame r p.2 → state_frame r (playNote r note p).2.
Proof.
  intros H. unfold playNote. cbv zeta.
  destruct (List.find (same_name note) (pressedKeys r)) as [n|] eqn:Hf.
  - rewrite bool_decide_eq_true_2 by by eexists.
    destruct (latch (control r)); cbn [andb];
      [by apply state_frame_stopNote|done].
  - rewrite bool_decide_eq_false_2 by by intros [? ?].
    rewrite andb_false_r.
    assert (state_frame r
              (on_state (setPressedKeys (pressedKeys r ++ [note])) p).2) as H'.
    { cbn [on_state snd]. apply state_frame_setPressedKeys; [done|].
      intros Hr. by apply NoDup_names_snoc. }
    by destruct (arp (control r)).
Qed.

Lemma state_frame_handleKeyDown T r key shiftKey p :
  state_frame r p.2 → state_frame r (handleKeyDown T r key shiftKey p).2.
Proof.
  intros H. unfold handleKeyDown.
  destruct (String.eqb key "Escape"); [by apply state_frame_release_all|].
  destruct (String.eqb key "M" && shiftKey); [exact H|].
  destruct (lookup_note T key); [by apply state_frame_playNote|done].
Qed.

Lemma state_frame_handleKeyUp T r key p :
  state_frame r p.2 → state_frame r (handleKeyUp T r key p).2.
Proof.
  intros H. unfold handleKeyUp.
  destruct (lookup_note T key); [by apply state_frame_stopNote|done].
Qed.

(** The state after [handleControlChange]: the new control record, the
    cursor that goes with its arpeggiator switch, and held notes that are
    those of the render or none. *)
Lemma handleControlChange_state r c p :
  state_frame r p.2 →
  let q := (handleControlChange r c p).2 in
  keys_ok r q ∧ control q = c ∧
  currentNote q =
    if arp c && negb (Bool.eqb (arp c) (arp (control r))) then Some 0
    else if negb (Bool.eqb (arp c) (arp (control r))) then None
    else currentNote r.
Proof.
  intros H. cbv zeta. unfold handleControlChange. cbv zeta.
  pose proof (state_frame_release_all r p H) as H'.
  destruct (latch (control r)), (latch c), (arp c), (arp (control r));
    cbn [negb Bool.eqb andb on_state on_store fst snd];
    repeat match goal with
    | Hx : state_frame _ _ |- _ => destruct Hx as (? & ? & ?)
    end; done.
Qed.
End HeldNotes.

Section ArpState.
Implicit Types (s : Store) (r q : Render) (p : Pending) (w : World).

Lemma state_frame_fields r q :
  pressedKeys q = pressedKeys r → pressedKeysId q = pressedKeysId r →
  currentNote q = currentNote r → control q = control r → state_frame r q.
Proof.
  intros Hk Hi Hc Hctl. split; [|done]. split; [|by left].
  unfold held_names. by rewrite Hk.
Qed.

Lemma handleLFOChange_state r l p :
  (handleLFOChange r l p).2 = setLFO l p.2.
Proof.
  destruct p as [s q]. unfold handleLFOChange, on_store, on_state.
  cbv zeta. cbn [fst snd]. by repeat case_match.
Qed.

Lemma cursor_ok_frame r q : state_frame r q → cursor_ok r → cursor_ok q.
Proof. intros (_ & Hc & Hctl) H. unfold cursor_ok. by rewrite Hc, Hctl. Qed.

Lemma commit_arp_state clock r p w' :
  NoDup (held_names r) → keys_ok r p.2 → cursor_ok p.2 →
  (arp (control r) = false → clock = None) →
  (is_Some clock → pressedKeys r ≠ []) →
  commit clock r p = Some w' → arp_state_ok w'.
Proof.
  intros Hnd [Hk Hm] Hcur Hoff Harmed. unfold commit.
  case_bool_decide as Hd.
  - intros [= <-]. unfold deps in Hd. injection Hd as Hid Hc Ha.
    split; [by apply Hk|]. split; [done|]. cbn [render arpClock]. split.
    + rewrite Ha. exact Hoff.
    + destruct Hm as [[-> _]|Hlt]; [done|lia].
  - unfold arp_effect.
    destruct (arp (control p.2)) eqn:Ha; cbn [andb].
    2: { intros [= <-]. split; [by apply Hk|]. split; [done|].
         cbn [render arpClock]. split; [done|]. by intros [? ?]. }
    destruct (0 <? length (pressedKeys p.2))%nat eqn:Hlen.
    2: { intros [= <-]. split; [by apply Hk|]. split; [done|].
         cbn [render arpClock]. split; [done|]. by intros [? ?]. }
    assert (pressedKeys p.2 ≠ []) as Hne.
    { intros Heq. rewrite Heq in Hlen. done. }
    assert (∀ s t, arp_state_ok (mkWorld p.2 s t)) as Hok.
    { intros s t. split; [by apply Hk|]. split; [done|].
      cbn [render arpClock]. split; [by rewrite Ha|done]. }
    destruct (arp_note p.2); [destruct (playArpNote _ _ _); [|done]|];
      intros [= <-]; apply Hok.
Qed.

Lemma step_arp_state T e w w' :
  arp_state_ok w → step T e w = Some w' → arp_state_ok w'.
Proof.
  destruct w as [r s clock]. intros (Hnd & Hcur & Hoff & Harmed).
  cbn [render arpClock] in *.
  assert (∀ p, state_frame r p.2 → commit clock r p = Some w' →
               arp_state_ok w') as Hframe.
  { intros p Hp. pose proof Hp as [Hk _].
    apply commit_arp_state; try done. by eapply cursor_ok_frame. }
  destruct e; unfold step; cbn [render store arpClock].
  - apply Hframe, state_frame_handleKeyDown, state_frame_refl.
  - apply Hframe, state_frame_handleKeyUp, state_frame_refl.
  - by apply Hframe, state_frame_fields.
  - by apply Hframe, state_frame_fields.
  - apply Hframe. unfold handleAmpChange, on_store, on_state. cbn [fst snd].
    by apply state_frame_fields.
  - apply Hframe. unfold handleFilterChange, on_store, on_state.
    cbn [fst snd]. by apply state_frame_fields.
  - apply Hframe. unfold handleEnvelopeChange, on_store, on_state.
    cbn [fst snd]. by apply state_frame_fields.
  - apply Hframe. unfold handleDelayChange, on_store, on_state.
    cbn [fst snd]. by apply state_frame_fields.
  - destruct (handleControlChange_state r newControl (s, r)
                (state_frame_refl r)) as (Hk & Hctl & Hc).
    apply commit_arp_state; try done.
    unfold cursor_ok. rewrite Hctl, Hc. destruct Hcur as [Hc0 Hc1].
    destruct (arp newControl), (arp (control r));
      cbn [negb Bool.eqb andb]; split; intros; try done; auto.
  - apply Hframe. rewrite handleLFOChange_state. by apply state_frame_fields.
  - by apply Hframe, state_frame_fields.
  - by apply Hframe, state_frame_fields.
  - destruct clock as [d|]; [|by intros [= <-]].
    assert (arp (control r) = true) as Ha.
    { destruct (arp (control r)); [done|]. by specialize (Hoff eq_refl). }
    apply commit_arp_state; cbn [fst snd];
      [done| | |done|by intros [? ?]].
    + unfold arp_timeout. case_match; split; try done; by left.
    + unfold arp_timeout, cursor_ok.
      case_match; cbn [setCurrentNote control currentNote];
        (split; [by rewrite Ha|by eexists]).
  - by intros [= <-].
Qed.
End ArpState.

(** ** Nothing is ever stopped, disconnected or removed *)

Section Chains.
Implicit Types (s : Store) (r : Render) (note : Note).

Lemma alter_release_osc_inv (m : gmap nat Node) t1 t2 i j o :
  alter (release_ramp t1 t2) i m !! j = Some (NOsc o) →
  m !! j = Some (NOsc o).
Proof.
  destruct (decide (i = j)) as [->|Hne].
  - rewrite lookup_alter_eq. by destruct (m !! j) as [[?|?]|].
  - by rewrite lookup_alter_ne.
Qed.

Lemma alter_release_outputs (m : gmap nat Node) t1 t2 i j g' :
  alter (release_ramp t1 t2) i m !! j = Some (NGain g') →
  ∃ g, m !! j = Some (NGain g) ∧ gain_outputs g' = gain_outputs g.
Proof.
  destruct (decide (i = j)) as [->|Hne].
  - rewrite lookup_alter_eq. destruct (m !! j) as [[?|g]|]; try done.
    intros [= <-]. by exists g.
  - rewrite lookup_alter_ne by done. intros H. by exists g'.
Qed.

Lemma chains_ok_alter s t1 t2 i :
  chains_ok s → chains_ok (with_nodes (alter (release_ramp t1 t2) i (nodes s)) s).
Proof.
  intros (Ho & Hg & Hu). split; [|split]; cbn [nodes next_id with_nodes].
  - intros j o Hj. apply alter_release_osc_inv in Hj.
    destruct (Ho j o Hj) as (? & ? & idv & g & ? & Hv).
    split; [done|]. split; [done|].
    destruct (alter_release_gain _ t1 t2 i _ _ Hv) as (g' & Hg' & _).
    by exists idv, g'.
  - intros j g' Hj. apply alter_release_outputs in Hj as (g & Hj & ->).
    by eapply Hg.
  - intros j Hj. destruct (Hu j Hj) as [[o|g] Hn].
    + rewrite (alter_release_osc _ _ _ _ _ _ Hn). by eexists.
    + destruct (alter_release_gain _ t1 t2 i _ _ Hn) as (g' & -> & _).
      by eexists.
Qed.

Lemma chains_ok_retriggered note s : chains_ok s → chains_ok (retriggered note s).
Proof.
  intros H. unfold retriggered, destroyOscillator.
  destruct (voicesRef s !! name note); [|done]. by apply chains_ok_alter.
Qed.

Lemma chains_ok_createOscillator r note s :
  heap_ok s → chains_ok s → chains_ok (createOscillator r note s).
Proof.
  intros Hh Hc. destruct (truthy (frequency note)) eqn:Ht.
  2: by rewrite createOscillator_falsy.
  destruct (frequency note) as [f|] eqn:Hf; [|done].
  rewrite (createOscillator_truthy r note s f Hf Ht). cbv zeta.
  pose proof (heap_ok_retriggered note s Hh) as Hh0.
  destruct (chains_ok_retriggered note s Hc) as (Ho & Hg & Hu).
  destruct (retriggered_frame note s) as (_ & _ & Hn0 & _).
  rewrite Hn0 in Hu.
  assert (∀ i x, nodes (retriggered note s) !! i = Some x →
                 (i < next_id s)%nat) as Hold.
  { intros i x Hi. rewrite <- Hn0. by eapply heap_ok_used. }
  split; [|split]; cbn [nodes next_id].
  - intros i o Hi.
    destruct (decide (i = S (S (next_id s)))) as [->|H2].
    { by rewrite lookup_insert_eq in Hi. }
    rewrite lookup_insert_ne in Hi by done.
    destruct (decide (i = S (next_id s))) as [->|H1].
    { rewrite lookup_insert_eq in Hi. injection Hi as <-.
      split; [done|]. split; [done|]. eexists _, _. split; [reflexivity|].
      apply lookup_insert_eq. }
    rewrite lookup_insert_ne in Hi by done.
    destruct (decide (i = next_id s)) as [->|H0].
    { rewrite lookup_insert_eq in Hi. injection Hi as <-.
      split; [done|]. split; [done|]. eexists _, _. split; [reflexivity|].
      apply lookup_insert_eq. }
    rewrite lookup_insert_ne in Hi by done.
    destruct (Ho i o Hi) as (? & ? & idv & g & ? & Hv).
    split; [done|]. split; [done|]. exists idv, g. split; [done|].
    pose proof (Hold _ _ Hv). by rewrite !lookup_insert_ne by lia.
  - intros i g Hi.
    destruct (decide (i = S (S (next_id s)))) as [->|H2].
    { rewrite lookup_insert_eq in Hi. by injection Hi as <-. }
    rewrite lookup_insert_ne in Hi by done.
    destruct (decide (i = S (next_id s))) as [->|H1].
    { by rewrite lookup_insert_eq in Hi. }
    rewrite lookup_insert_ne in Hi by done.
    destruct (decide (i = next_id s)) as [->|H0].
    { by rewrite lookup_insert_eq in Hi. }
    rewrite lookup_insert_ne in Hi by done. by eapply Hg.
  - intros i Hi.
    destruct (decide (i = S (S (next_id s)))) as [->|H2].
    { rewrite lookup_insert_eq. by eexists. }
    rewrite lookup_insert_ne by done.
    destruct (decide (i = S (next_id s))) as [->|H1].
    { rewrite lookup_insert_eq. by eexists. }
    rewrite lookup_insert_ne by done.
    destruct (decide (i = next_id s)) as [->|H0].
    { rewrite lookup_insert_eq. by eexists. }
    rewrite lookup_insert_ne by done. apply Hu. lia.
Qed.

Lemma nothing_removed_refl s : nothing_removed s s.
Proof. split; [done|]. split; [done|lia]. Qed.

Lemma nothing_removed_alter s0 s t1 t2 i :
  nothing_removed s0 s →
  nothing_removed s0 (with_nodes (alter (release_ramp t1 t2) i (nodes s)) s).
Proof.
  intros (Ho & Hd & Hn). split; [|done].
  intros j o Hj. cbn [nodes with_nodes]. by apply alter_release_osc, Ho.
Qed.

Lemma nothing_removed_createOscillator s0 r note s :
  heap_ok s → nothing_removed s0 s →
  nothing_removed s0 (createOscillator r note s).
Proof.
  intros Hh (Ho & Hd & Hn). destruct (truthy (frequency note)) eqn:Ht.
  2: by rewrite createOscillator_falsy.
  destruct (frequency note) as [f|] eqn:Hf; [|done].
  rewrite (createOscillator_truthy r note s f Hf Ht). cbv zeta.
  split; [|split]; cbn [nodes voicesRef next_id].
  - intros i o Hi. pose proof (Ho i o Hi) as Hs.
    pose proof (heap_ok_used _ _ _ Hh Hs).
    rewrite !lookup_insert_ne by lia. by apply retriggered_osc.
  - rewrite dom_insert_L. set_solver.
  - lia.
Qed.
End Chains.

Lemma heap_chains_reachable T w :
  reachable T w → heap_ok (store w) ∧ chains_ok (store w).
Proof.
  induction 1 as [|e w w' _ IH Hs].
  - split; [apply heap_ok_initial|].
    unfold initial_world, chains_ok. cbn [store nodes next_id initial_store].
    split; [|split].
    + intros i o H. by rewrite lookup_empty in H.
    + intros i g H. by rewrite lookup_empty in H.
    + intros i H. lia.
  - revert IH Hs. apply (inv_step (λ s, heap_ok s ∧ chains_ok s)).
    + intros s t1 t2 i [? ?]. split; [by apply heap_ok_alter|by apply chains_ok_alter].
    + intros r note s [? ?].
      split; [by apply heap_ok_createOscillator|by apply chains_ok_createOscillator].
    + intros s s' Hn Hv Hi [Hh (Ho & Hg & Hu)].
      split; [by eapply heap_ok_ext|]. unfold chains_ok. rewrite Hn, Hi. done.
Qed.

Lemma run_nothing_removed T es w w' :
  heap_ok (store w) → run T es w = Some w' →
  heap_ok (store w') ∧ nothing_removed (store w) (store w').
Proof.
  intros Hh.
  apply (inv_run (λ s, heap_ok s ∧ nothing_removed (store w) s)).
  - intros s t1 t2 i [? ?].
    split; [by apply heap_ok_alter|by apply nothing_removed_alter].
  - intros r note s [? ?].
    split; [by apply heap_ok_createOscillator|
            by apply nothing_removed_createOscillator].
  - intros s s' Hn Hv Hi [Hh' (Ho & Hd & Hx)].
    split; [by eapply heap_ok_ext|]. unfold nothing_removed.
    rewrite Hn, Hv, Hi. done.
  - split; [done|apply nothing_removed_refl].
Qed.

(** ** Invariants of every world the component can be in *)

Lemma arp_state_reachable T w : reachable T w → arp_state_ok w.
Proof.
  induction 1 as [|e w w' _ IH Hs].
  - split; [constructor|]. split; [by split|]. split; [done|].
    by intros [? ?].
  - by eapply step_arp_state.
Qed.

(** X1. No note is held twice: in every world the component can be in, the
    names of the held notes are pairwise distinct. *)
Theorem held_notes_have_distinct_names T w :
  reachable T w → NoDup (held_names (render w)).
Proof. intros H. by destruct (arp_state_reachable T w H). Qed.

Lemma held_notes_have_distinct_names_example :
  ∃ w, run Ex.tables
         [KeyDown "a" false; KeyDown "s" false; KeyDown "a" false;
          KeyUp "a"; KeyDown "a" false]
         initial_world = Some w ∧
       NoDup (held_names (render w)).
Proof.
  destruct (run Ex.tables
              [KeyDown "a" false; KeyDown "s" false; KeyDown "a" false;
               KeyUp "a"; KeyDown "a" false] initial_world)
    as [w|] eqn:Hrun; [|vm_compute in Hrun; discriminate].
  exists w. split; [reflexivity|].
  apply (held_notes_have_distinct_names Ex.tables).
  exact (run_reachable _ _ _ _ (reachable_initial _) Hrun).
Defined.

(** X2. The cursor and the timeout follow the arpeggiator switch: in every
    world the component can be in, the cursor is [null] and no timeout is
    pending while the arpeggiator is off, the cursor is a number while it is
    on, and a timeout is pending only while it is on and a note is held. *)
Theorem cursor_and_timeout_follow_arp T w :
  reachable T w →
  (arp (control (render w)) = false →
     currentNote (render w) = None ∧ arpClock w = None) ∧
  (arp (control (render w)) = true → is_Some (currentNote (render w))) ∧
  (is_Some (arpClock w) →
     arp (control (render w)) = true ∧ pressedKeys (render w) ≠ []).
Proof.
  intros H. destruct (arp_state_reachable T w H) as (_ & [Hc0 Hc1] & Hoff & Ha).
  split; [by auto|]. split; [done|]. intros Hclock. split; [|by apply Ha].
  destruct (arp (control (render w))); [done|].
  rewrite (Hoff eq_refl) in Hclock. by destruct Hclock.
Qed.

Lemma cursor_and_timeout_follow_arp_example :
  ∃ w, run Ex.tables
         [ControlChange (mkControl 90 false true); KeyDown "a" false;
          KeyDown "s" false; Timeout; ControlChange (mkControl 120 false false)]
         initial_world = Some w ∧
       currentNote (render w) = None ∧ arpClock w = None.
Proof.
  destruct (run Ex.tables
              [ControlChange (mkControl 90 false true); KeyDown "a" false;
               KeyDown "s" false; Timeout;
               ControlChange (mkControl 120 false false)] initial_world)
    as [w|] eqn:Hrun; [|vm_compute in Hrun; discriminate].
  exists w. split; [reflexivity|].
  destruct (cursor_and_timeout_follow_arp Ex.tables w
              (run_reachable _ _ _ _ (reachable_initial _) Hrun))
    as (Hoff & _).
  apply Hoff. vm_compute in Hrun. by injection Hrun as <-.
Defined.

(** X3. No voice chain is ever taken apart: in every world the component
    can be in, every oscillator ever created is running (started, never
    stopped) and connected to one gain node of the heap, every gain node
    ever created is connected to the filter, and every address below the
    allocation counter holds a node. *)
Theorem voice_chains_stay_wired T w :
  reachable T w →
  (∀ i o, nodes (store w) !! i = Some (NOsc o) →
     osc_started o = true ∧ osc_stopped o = false ∧
     ∃ idv g, osc_outputs o = [Tnode idv] ∧
              nodes (store w) !! idv = Some (NGain g)) ∧
  (∀ i g, nodes (store w) !! i = Some (NGain g) →
     gain_outputs g = [Tfilter]) ∧
  (∀ i, (i < next_id (store w))%nat → is_Some (nodes (store w) !! i)).
Proof. intros H. by destruct (heap_chains_reachable T w H) as [_ ?]. Qed.

Lemma voice_chains_stay_wired_example :
  ∃ w, run Ex.tables
         [KeyDown "a" false; KeyUp "a"; KeyDown "a" false; KeyDown "Escape" false]
         initial_world = Some w ∧
       next_id (store w) = 6 ∧
       ∀ i, (i < 6)%nat → is_Some (nodes (store w) !! i).
Proof.
  destruct (run Ex.tables
              [KeyDown "a" false; KeyUp "a"; KeyDown "a" false;
               KeyDown "Escape" false] initial_world)
    as [w|] eqn:Hrun; [|vm_compute in Hrun; discriminate].
  exists w. split; [reflexivity|].
  destruct (voice_chains_stay_wired Ex.tables w
              (run_reachable _ _ _ _ (reachable_initial _) Hrun))
    as (_ & _ & Hu).
  assert (next_id (store w) = 6) as Hn.
  { vm_compute in Hrun. by injection Hrun as <-. }
  split; [exact Hn|]. intros i Hi. apply Hu. rewrite Hn. exact Hi.
Defined.

(** X4. Nothing is ever removed: from a world the component can be in,
    whatever events follow, every oscillator of the heap stays exactly as
    it is (a change of the oscillator parameters only shows in voices
    created later), every name bound in the voice map stays bound, and the
    allocation counter does not go back. *)
Theorem nothing_is_ever_removed T w es w' :
  reachable T w → run T es w = Some w' →
  (∀ i o, nodes (store w) !! i = Some (NOsc o) →
     nodes (store w') !! i = Some (NOsc o)) ∧
  dom (voicesRef (store w)) ⊆ dom (voicesRef (store w')) ∧
  (next_id (store w) ≤ next_id (store w'))%nat.
Proof.
  intros H Hrun. destruct (heap_chains_reachable T w H) as [Hh _].
  by destruct (run_nothing_removed T es w w' Hh Hrun) as [_ ?].
Qed.

Lemma nothing_is_ever_removed_example :
  ∃ w w',
    run Ex.tables [KeyDown "a" false] initial_world = Some w ∧
    run Ex.tables
      [KeyUp "a"; Osc1Change (mkOscParams "sine" 7 2); KeyDown "Escape" false;
       KeyDown "s" false] w = Some w' ∧
    nodes (store w') !! 0 = nodes (store w) !! 0 ∧
    "C4" ∈ dom (voicesRef (store w')).
Proof.
  destruct (run Ex.tables [KeyDown "a" false] initial_world)
    as [w|] eqn:Hrun; [|vm_compute in Hrun; discriminate].
  destruct (run Ex.tables
              [KeyUp "a"; Osc1Change (mkOscParams "sine" 7 2);
               KeyDown "Escape" false; KeyDown "s" false] w)
    as [w'|] eqn:Hrun'.
  2: { vm_compute in Hrun. injection Hrun as <-.
       vm_compute in Hrun'. discriminate. }
  exists w, w'. split; [reflexivity|]. split; [exact Hrun'|].
  destruct (nothing_is_ever_removed Ex.tables w _ w'
              (run_reachable _ _ _ _ (reachable_initial _) Hrun) Hrun')
    as (Ho & Hd & _).
  assert (∃ o, nodes (store w) !! 0 = Some (NOsc o)) as [o Hw0].
  { vm_compute in Hrun. injection Hrun as <-. by eexists. }
  assert ("C4" ∈ dom (voicesRef (store w))) as Hin.
  { vm_compute in Hrun. injection Hrun as <-. apply elem_of_dom.
    by eexists. }
  split; [by rewrite Hw0, (Ho _ _ Hw0)|by apply Hd].
Defined.

(** X5. The envelope of the React state and the envelope ref never differ:
    in every world the component can be in they are the same record, so the
    attack, decay and sustain of a note-on and the release of a note-off
    come from one envelope. *)
Theorem envelope_state_matches_ref T w :
  reachable T w → envelope (render w) = envelopeRef (store w).
Proof. intros H. by destruct (reachable_world_ok T w H). Qed.

Lemma envelope_state_matches_ref_example :
  ∃ w, run Ex.tables
         [EnvelopeChange Ex.env; KeyDown "a" false;
          EnvelopeChange Ex.env_long; KeyUp "a"]
         initial_world = Some w ∧
       envelope (render w) = Ex.env_long ∧
       envelopeRef (store w) = Ex.env_long.
Proof.
  destruct (run Ex.tables
              [EnvelopeChange Ex.env; KeyDown "a" false;
               EnvelopeChange Ex.env_long; KeyUp "a"] initial_world)
    as [w|] eqn:Hrun; [|vm_compute in Hrun; discriminate].
  exists w. split; [reflexivity|].
  pose proof (envelope_state_matches_ref Ex.tables w
                (run_reachable _ _ _ _ (reachable_initial _) Hrun)) as He.
  assert (envelopeRef (store w) = Ex.env_long) as Hr.
  { vm_compute in Hrun. by injection Hrun as <-. }
  split; [by rewrite He|exact Hr].
Defined.

(** ** Keys *)

Lemma commit_no_keys clock r s' (p : Render) :
  pressedKeys p = [] → (pressedKeysId r < pressedKeysId p)%nat →
  commit clock r (s', p) = Some (mkWorld p s' None).
Proof.
  intros Hp Hid. unfold commit. cbn [fst snd].
  rewrite bool_decide_eq_false_2.
  2: { unfold deps. intros [= ? ? ?]. lia. }
  unfold arp_effect. rewrite Hp. cbn [length]. by rewrite andb_false_r.
Qed.

(** X6. The Escape key releases everything, whatever the latch: the event
    runs to completion, no note is held afterwards, no timeout is pending,
    the VCA of every note that was held and had a voice ends its automation
    with the note-off events at the current time with the current release;
    the control record, the cursor and the names of the voice map are as
    before. *)
Theorem escape_releases_every_held_note T w shiftKey :
  ∃ w', step T (KeyDown "Escape" shiftKey) w = Some w' ∧
        pressedKeys (render w') = [] ∧
        arpClock w' = None ∧
        control (render w') = control (render w) ∧
        currentNote (render w') = currentNote (render w) ∧
        voicesRef (store w') = voicesRef (store w) ∧
        ∀ note v g,
          note ∈ pressedKeys (render w) →
          voicesRef (store w) !! name note = Some v →
          nodes (store w) !! vca v = Some (NGain g) →
          released_at (currentTime (store w))
            (release (envelopeRef (store w))) (store w') (vca v).
Proof.
  destruct w as [r s clock]. unfold step, handleKeyDown.
  cbn [render store arpClock]. rewrite String.eqb_refl.
  destruct (release_all_spec r (s, r)) as (H1 & H2 & H3 & H4 & H5).
  destruct (release_all r (s, r)) as [s1 p1]. cbn [fst snd] in *. subst s1.
  rewrite commit_no_keys by done.
  destruct (destroy_all_frame (pressedKeys r) s) as (_ & Hv & _).
  eexists. split; [reflexivity|]. cbn [render store arpClock].
  repeat (split; [done|]).
  intros note v g Hin Hvo Hg. by eapply destroy_all_releases.
Qed.

(** X7. With latch on, a key-up changes nothing at all: the world after the
    event is the world before it. *)
Theorem latched_key_up_changes_nothing T w key :
  latch (control (render w)) = true → step T (KeyUp key) w = Some w.
Proof.
  destruct w as [r s clock]. cbn [render]. intros Hl.
  unfold step, handleKeyUp, stopNote. cbn [render store arpClock].
  rewrite Hl. cbn [negb andb].
  destruct (lookup_note T key); by rewrite commit_same_deps.
Qed.

Lemma latched_key_up_changes_nothing_example :
  ∃ w, run Ex.tables
         [ControlChange (mkControl 90 true false); KeyDown "a" false]
         initial_world = Some w ∧
       step Ex.tables (KeyUp "a") w = Some w ∧
       pressedKeys (render w) = [Ex.C4].
Proof.
  destruct (run Ex.tables
              [ControlChange (mkControl 90 true false); KeyDown "a" false]
              initial_world)
    as [w|] eqn:Hrun; [|vm_compute in Hrun; discriminate].
  exists w. split; [reflexivity|].
  assert (latch (control (render w)) = true ∧ pressedKeys (render w) = [Ex.C4])
    as [Hl Hk].
  { vm_compute in Hrun. by injection Hrun as <-. }
  split; [|exact Hk].
  exact (latched_key_up_changes_nothing Ex.tables w "a" Hl).
Defined.

(** X8. A key without a note changes nothing: when the key is not in the
    key table, or its note is not in the note table, a key-up leaves the
    world as it is, and so does a key-down unless the key is Escape or
    Shift+M. *)
Theorem key_without_note_changes_nothing T w key shiftKey :
  lookup_note T key = None →
  step T (KeyUp key) w = Some w ∧
  (key ≠ "Escape" → ¬ (key = "M" ∧ shiftKey = true) →
   step T (KeyDown key shiftKey) w = Some w).
Proof.
  destruct w as [r s clock]. intros Hn. split.
  - unfold step, handleKeyUp. cbn [render store arpClock].
    rewrite Hn. by rewrite commit_same_deps.
  - intros He Hm. unfold step, handleKeyDown. cbn [render store arpClock].
    apply String.eqb_neq in He as ->.
    assert (String.eqb key "M" && shiftKey = false) as ->.
    { destruct (String.eqb_spec key "M"), shiftKey; try done.
      by destruct Hm. }
    rewrite Hn. by rewrite commit_same_deps.
Qed.

Lemma key_without_note_changes_nothing_example :
  step Ex.tables (KeyUp "q") initial_world = Some initial_world ∧
  step Ex.tables (KeyDown "q" true) initial_world = Some initial_world.
Proof.
  destruct (key_without_note_changes_nothing Ex.tables initial_world "q" true
              eq_refl) as [Hu Hd].
  split; [exact Hu|]. apply Hd; [discriminate|]. by intros [? _].
Defined.

Section PressRelease.
Implicit Types (s : Store) (r : Render) (note : Note) (w : World).

Lemma find_not_held note (l : list Note) :
  name note ∉ map name l → List.find (same_name note) l = None.
Proof.
  intros Hn. destruct (List.find (same_name note) l) as [n|] eqn:Hf; [|done].
  apply find_some in Hf as [Hin He]. unfold same_name in He.
  apply String.eqb_eq in He. destruct Hn. rewrite <- He.
  apply list_elem_of_In, in_map, Hin.
Qed.

Lemma find_just_pressed note (l : list Note) :
  is_Some (List.find (same_name note) (l ++ [note])).
Proof.
  destruct (List.find (same_name note) (l ++ [note])) eqn:Hf; [by eexists|].
  pose proof (find_none _ _ Hf note) as H.
  unfold same_name in H. rewrite String.eqb_refl in H.
  discriminate H. apply in_or_app. right. by left.
Qed.

Lemma filter_just_pressed note (l : list Note) :
  name note ∉ map name l →
  List.filter (λ n, negb (same_name note n)) (l ++ [note]) = l.
Proof.
  intros Hn. rewrite List.filter_app. cbn [List.filter].
  unfold same_name at 2. rewrite String.eqb_refl. cbn [negb].
  rewrite app_nil_r. apply filter_other_names.
  intros n Hin He. apply Hn. rewrite <- He.
  apply list_elem_of_In, in_map, list_elem_of_In, Hin.
Qed.

Lemma commit_arp_off clock r (p : Pending) :
  arp (control p.2) = false → pressedKeysId p.2 ≠ pressedKeysId r →
  commit clock r p = Some (mkWorld p.2 p.1 None).
Proof.
  intros Ha Hid. unfold commit.
  rewrite bool_decide_eq_false_2.
  2: { unfold deps. by intros [= ? ? ?]. }
  unfold arp_effect. by rewrite Ha.
Qed.

(** A key-down for a note that is not held, with the arpeggiator off: the
    note is appended to the held notes and its voice is created. *)
Lemma step_press_new T w key shiftKey note :
  arp (control (render w)) = false →
  lookup_note T key = Some note →
  key ≠ "Escape" → ¬ (key = "M" ∧ shiftKey = true) →
  name note ∉ held_names (render w) →
  step T (KeyDown key shiftKey) w =
    Some (mkWorld
            (setPressedKeys (pressedKeys (render w) ++ [note]) (render w))
            (createOscillator (render w) note (store w)) None).
Proof.
  destruct w as [r s clock]. cbn [render store]. intros Ha Hn He Hm Hh.
  unfold step, handleKeyDown. cbn [render store arpClock].
  apply String.eqb_neq in He as ->.
  assert (String.eqb key "M" && shiftKey = false) as ->.
  { destruct (String.eqb_spec key "M"), shiftKey; try done. by destruct Hm. }
  rewrite Hn. unfold playNote. cbv zeta.
  rewrite (find_not_held _ _ Hh).
  rewrite bool_decide_eq_false_2 by by intros [? ?].
  rewrite andb_false_r, Ha.
  rewrite commit_arp_off; [done|done|].
  cbn [on_store on_state fst snd setPressedKeys pressedKeysId]. lia.
Qed.
End PressRelease.

(** X9. Press and release, without latch and with the arpeggiator off: a
    key-down for a note that is not held followed by the key-up of the same
    key leaves the held notes as they were; the store is the one after the
    voice of the note was created and then sent into its release. *)
Theorem press_then_release_round_trip T w key shiftKey note :
  latch (control (render w)) = false →
  arp (control (render w)) = false →
  lookup_note T key = Some note →
  key ≠ "Escape" → ¬ (key = "M" ∧ shiftKey = true) →
  name note ∉ held_names (render w) →
  ∃ w', run T [KeyDown key shiftKey; KeyUp key] w = Some w' ∧
        pressedKeys (render w') = pressedKeys (render w) ∧
        store w' =
          destroyOscillator note
            (createOscillator (render w) note (store w)) ∧
        arpClock w' = None.
Proof.
  intros Hl Ha Hn He Hm Hh. cbn [run].
  rewrite (step_press_new T w key shiftKey note Ha Hn He Hm Hh).
  destruct w as [r s clock]. cbn [render store] in *.
  unfold step, handleKeyUp, stopNote. cbn [render store arpClock].
  rewrite Hn. cbn [setPressedKeys control]. rewrite Hl. cbn [andb].
  rewrite commit_arp_off.
  - eexists. split; [reflexivity|].
    cbn [render store arpClock on_store on_state fst snd setPressedKeys
         pressedKeys].
    split; [|done]. by apply filter_just_pressed.
  - by cbn.
  - cbn [on_store on_state fst snd setPressedKeys pressedKeysId]. lia.
Qed.

Lemma press_then_release_round_trip_example :
  ∃ w', run Ex.tables [KeyDown "a" false; KeyUp "a"] initial_world = Some w' ∧
        pressedKeys (render w') = [] ∧
        released_at 0 0 (store w') 2.
Proof.
  destruct (press_then_release_round_trip Ex.tables initial_world "a" false
              Ex.C4 eq_refl eq_refl eq_refl)
    as (w' & Hrun & Hk & Hs & _).
  - discriminate.
  - by intros [? _].
  - apply not_elem_of_nil.
  - exists w'. split; [exact Hrun|]. split; [exact Hk|].
    rewrite Hs.
    exact (destroyOscillator_releases Ex.C4
             (createOscillator initial_render Ex.C4 initial_store)
             (mkVoice 2) (voice_vca initial_render initial_store)
             eq_refl eq_refl).
Defined.

(** X10. Under latch a second press is the release: with latch on and the
    arpeggiator off, two key-downs of the key of a note that is not held
    leave the held notes as they were, and the store is the one after the
    voice of the note was created and then sent into its release, as after
    a press and a release without latch. *)
Theorem latched_press_twice_round_trip T w key shiftKey note :
  latch (control (render w)) = true →
  arp (control (render w)) = false →
  lookup_note T key = Some note →
  key ≠ "Escape" → ¬ (key = "M" ∧ shiftKey = true) →
  name note ∉ held_names (render w) →
  ∃ w', run T [KeyDown key shiftKey; KeyDown key shiftKey] w = Some w' ∧
        pressedKeys (render w') = pressedKeys (render w) ∧
        store w' =
          destroyOscillator note
            (createOscillator (render w) note (store w)) ∧
        arpClock w' = None.
Proof.
  intros Hl Ha Hn He Hm Hh. cbn [run].
  rewrite (step_press_new T w key shiftKey note Ha Hn He Hm Hh).
  destruct w as [r s clock]. cbn [render store] in *.
  unfold step, handleKeyDown. cbn [render store arpClock].
  apply String.eqb_neq in He as ->.
  assert (String.eqb key "M" && shiftKey = false) as ->.
  { destruct (String.eqb_spec key "M"), shiftKey; try done. by destruct Hm. }
  rewrite Hn. unfold playNote. cbv zeta.
  cbn [setPressedKeys control pressedKeys]. rewrite Hl.
  rewrite bool_decide_eq_true_2 by apply find_just_pressed.
  cbn [andb]. unfold stopNote. cbn [setPressedKeys control pressedKeys].
  rewrite Hl. cbn [negb andb].
  rewrite commit_arp_off.
  - eexists. split; [reflexivity|].
    cbn [render store arpClock on_store on_state fst snd setPressedKeys
         pressedKeys].
    split; [|done]. by apply filter_just_pressed.
  - by cbn.
  - cbn [on_store on_state fst snd setPressedKeys pressedKeysId]. lia.
Qed.

Lemma latched_press_twice_round_trip_example :
  ∃ w w',
    step Ex.tables (ControlChange (mkControl 90 true false)) initial_world
      = Some w ∧
    run Ex.tables [KeyDown "s" false; KeyDown "s" false] w = Some w' ∧
    pressedKeys (render w') = [].
Proof.
  pose (w := mkWorld (setControl (mkControl 90 true false) initial_render)
               initial_store None).
  destruct (latched_press_twice_round_trip Ex.tables w "s" false Ex.D4
              eq_refl eq_refl eq_refl)
    as (w' & Hrun & Hk & _).
  - discriminate.
  - by intros [? _].
  - apply not_elem_of_nil.
  - exists w, w'. split; [reflexivity|]. split; [exact Hrun|exact Hk].
Defined.

(** ** The control record *)

(** X11. A control change that keeps the arpeggiator switch and does not
    turn latch off, a change of tempo or turning latch on, replaces the
    control record and nothing else: the store, the held notes, the cursor
    and the pending timeout are as before, so a new tempo shows at the next
    tick only. *)
Theorem control_change_keeps_timer T w c :
  arp c = arp (control (render w)) →
  (latch (control (render w)) = true → latch c = true) →
  step T (ControlChange c) w =
    Some (mkWorld (setControl c (render w)) (store w) (arpClock w)).
Proof.
  destruct w as [r s clock]. cbn [render store arpClock]. intros Ha Hl.
  unfold step, handleControlChange. cbn [render store arpClock]. cbv zeta.
  assert (negb (Bool.eqb (latch (control r)) (latch c)) && negb (latch c)
          = false) as ->.
  { destruct (latch (control r)), (latch c); try done.
    by specialize (Hl eq_refl). }
  rewrite Ha, Bool.eqb_reflx. cbn [negb]. rewrite andb_false_r.
  rewrite commit_same_deps; [done|].
  unfold deps. cbn [on_state fst snd setControl pressedKeysId currentNote
                    control]. by rewrite Ha.
Qed.

Lemma control_change_keeps_timer_example :
  ∃ w, run Ex.tables
         [ControlChange (mkControl 90 false true); KeyDown "a" false;
          KeyDown "s" false] initial_world = Some w ∧
       is_Some (arpClock w) ∧
       ∃ w', step Ex.tables (ControlChange (mkControl 140 true true)) w
               = Some w' ∧
             arpClock w' = arpClock w ∧ store w' = store w.
Proof.
  destruct (run Ex.tables
              [ControlChange (mkControl 90 false true); KeyDown "a" false;
               KeyDown "s" false] initial_world)
    as [w|] eqn:Hrun; [|vm_compute in Hrun; discriminate].
  exists w. split; [reflexivity|].
  assert (arp (control (render w)) = true ∧
          latch (control (render w)) = false ∧ is_Some (arpClock w))
    as (Ha & Hl & Hc).
  { vm_compute in Hrun. injection Hrun as <-.
    split; [done|]. split; [done|]. by eexists. }
  split; [exact Hc|]. eexists. split.
  - apply control_change_keeps_timer; [by rewrite Ha|].
    rewrite Hl. discriminate.
  - by split.
Defined.

Section ControlArp.
Implicit Types (s : Store) (r : Render) (note : Note).

Lemma createOscillator_keeps_bound r note s k :
  is_Some (voicesRef s !! k) →
  is_Some (voicesRef (createOscillator r note s) !! k).
Proof.
  intros H. destruct (truthy (frequency note)) eqn:Ht.
  2: by rewrite createOscillator_falsy.
  destruct (frequency note) as [f|] eqn:Hf; [|done].
  rewrite (createOscillator_truthy r note s f Hf Ht). cbv zeta.
  cbn [voicesRef]. destruct (decide (name note = k)) as [->|Hne].
  - rewrite lookup_insert_eq. by eexists.
  - by rewrite lookup_insert_ne.
Qed.

Lemma createOscillator_binds r note s :
  truthy (frequency note) = true →
  is_Some (voicesRef (createOscillator r note s) !! name note).
Proof.
  intros Ht. destruct (frequency note) as [f|] eqn:Hf; [|done].
  destruct (createOscillator_vca r note s f Hf Ht) as [-> _]. by eexists.
Qed.

Lemma create_all_binds r (l : list Note) s note :
  note ∈ l → truthy (frequency note) = true →
  is_Some (voicesRef (foldl (λ s n, createOscillator r n s) s l) !! name note).
Proof.
  intros Hin Ht.
  assert (∀ l s k, is_Some (voicesRef s !! k) →
            is_Some (voicesRef (foldl (λ s n, createOscillator r n s) s l) !! k))
    as Hkeep.
  { clear. intros l. induction l as [|a l IH]; intros s k H; [done|].
    cbn [foldl]. by apply IH, createOscillator_keeps_bound. }
  revert s. induction l as [|a l IH]; intros s.
  { by apply elem_of_nil in Hin. }
  cbn [foldl]. apply elem_of_cons in Hin as [<-|Hin].
  - by apply Hkeep, createOscillator_binds.
  - by apply IH.
Qed.
End ControlArp.

(** X12. Turning the arpeggiator off while latch is (or is being turned) on
    gives every held note its voice back: the event runs to completion, the
    cursor is [null], no timeout is pending, the held notes are as before,
    a voice was created for each of them in press order, and every held
    note with a usable frequency has a voice in the voice map. *)
Theorem arp_off_under_latch_rebuilds_voices T w c :
  arp (control (render w)) = true → arp c = false → latch c = true →
  ∃ w', step T (ControlChange c) w = Some w' ∧
        currentNote (render w') = None ∧
        arpClock w' = None ∧
        pressedKeys (render w') = pressedKeys (render w) ∧
        store w' =
          foldl (λ s note, createOscillator (render w) note s) (store w)
            (pressedKeys (render w)) ∧
        ∀ note, note ∈ pressedKeys (render w) →
                truthy (frequency note) = true →
                is_Some (voicesRef (store w') !! name note).
Proof.
  destruct w as [r s clock]. cbn [render store arpClock]. intros Ha Hc Hl.
  unfold step, handleControlChange. cbn [render store arpClock]. cbv zeta.
  rewrite Ha, Hc, Hl. cbn [negb Bool.eqb andb]. rewrite andb_false_r.
  unfold commit. rewrite bool_decide_eq_false_2.
  2: { unfold deps. cbn [on_state on_store fst snd setControl setCurrentNote
                        control arp]. rewrite Ha, Hc. by intros [= ? ? ?]. }
  unfold arp_effect.
  cbn [on_state on_store fst snd setControl setCurrentNote control].
  rewrite Hc. cbn [andb].
  eexists. split; [reflexivity|]. cbn [render store arpClock].
  repeat (split; [done|]).
  intros note Hin Ht. by apply create_all_binds.
Qed.

Lemma arp_off_under_latch_rebuilds_voices_example :
  ∃ w, run Ex.tables
         [ControlChange (mkControl 90 true true); KeyDown "a" false;
          KeyDown "s" false] initial_world = Some w ∧
       ∃ w', step Ex.tables (ControlChange (mkControl 90 true false)) w
               = Some w' ∧
             currentNote (render w') = None ∧
             is_Some (voicesRef (store w') !! "D4").
Proof.
  destruct (run Ex.tables
              [ControlChange (mkControl 90 true true); KeyDown "a" false;
               KeyDown "s" false] initial_world)
    as [w|] eqn:Hrun; [|vm_compute in Hrun; discriminate].
  exists w. split; [reflexivity|].
  assert (arp (control (render w)) = true ∧
          pressedKeys (render w) = [Ex.C4; Ex.D4]) as [Ha Hk].
  { vm_compute in Hrun. by injection Hrun as <-. }
  destruct (arp_off_under_latch_rebuilds_voices Ex.tables w
              (mkControl 90 true false) Ha eq_refl eq_refl)
    as (w' & Hs & Hc & _ & _ & _ & Hv).
  exists w'. split; [exact Hs|]. split; [exact Hc|].
  apply (Hv Ex.D4); [|reflexivity].
  rewrite Hk. apply list_elem_of_In. right. by left.
Defined.

(** X13. Turning the arpeggiator on sends the voice of every held note into
    its release and sets the cursor to 0, whatever the latch does in the
    same change: after the handler the cursor is 0, the control record is
    the new one, the voice map has the names it had, and the VCA of every
    note that was held and had a voice ends its automation with the
    note-off events at the current time with the current release. *)
Theorem arp_on_resets_cursor_and_releases r c s :
  arp (control r) = false → arp c = true →
  let p' := handleControlChange r c (s, r) in
  currentNote p'.2 = Some 0 ∧ control p'.2 = c ∧
  voicesRef p'.1 = voicesRef s ∧
  ∀ note v g,
    note ∈ pressedKeys r →
    voicesRef s !! name note = Some v →
    nodes s !! vca v = Some (NGain g) →
    released_at (currentTime s) (release (envelopeRef s)) p'.1 (vca v).
Proof.
  intros Ha Hc. cbv zeta. unfold handleControlChange. cbv zeta.
  rewrite Ha, Hc. cbn [negb Bool.eqb andb].
  destruct (release_all_spec r (s, r)) as (H1 & _ & _ & _ & _).
  destruct (destroy_all_frame (pressedKeys r) s) as (Ht & Hv & He & _).
  destruct (negb (Bool.eqb (latch (control r)) (latch c)) && negb (latch c));
    cbn [on_state on_store fst snd setControl setCurrentNote currentNote
         control];
    (split; [done|]); (split; [done|]).
  - rewrite H1. cbn [fst].
    change (foldl (λ s0 note, destroyOscillator note s0)
              (destroy_all (pressedKeys r) s) (pressedKeys r))
      with (destroy_all (pressedKeys r) (destroy_all (pressedKeys r) s)).
    destruct (destroy_all_frame (pressedKeys r) (destroy_all (pressedKeys r) s))
      as (_ & Hv' & _).
    split; [by rewrite Hv'|]. intros note v g Hin Hvo Hg.
    rewrite <- Ht, <- He. apply destroy_all_keeps_released.
    rewrite Ht, He. by eapply destroy_all_releases.
  - change (foldl (λ s0 note, destroyOscillator note s0) s (pressedKeys r))
      with (destroy_all (pressedKeys r) s).
    split; [done|]. intros note v g Hin Hvo Hg.
    by eapply destroy_all_releases.
Qed.

Lemma arp_on_resets_cursor_and_releases_example :
  let s := createOscillator initial_render Ex.C4 initial_store in
  let r := setPressedKeys [Ex.C4] initial_render in
  let p' := handleControlChange r (mkControl 90 false true) (s, r) in
  currentNote p'.2 = Some 0 ∧ released_at 0 0 p'.1 2.
Proof.
  cbv zeta.
  destruct (arp_on_resets_cursor_and_releases
              (setPressedKeys [Ex.C4] initial_render)
              (mkControl 90 false true)
              (createOscillator initial_render Ex.C4 initial_store)
              eq_refl eq_refl) as (Hc & _ & _ & Hr).
  split; [exact Hc|].
  refine (Hr Ex.C4 (mkVoice 2) (voice_vca initial_render initial_store)
            _ eq_refl eq_refl).
  apply list_elem_of_In. by left.
Defined.

(** ** The arpeggiator note and the touch-end handler *)

(** X14. An arpeggiator note is bounded: for a note with a usable
    frequency [playArpNote] does not throw; it registers a new voice whose
    VCA has the three attack and decay events followed by a cancel one
    second after the trigger and a linear ramp to 0 ending one second plus
    the release of the state envelope after the trigger. *)
Theorem playArpNote_schedules_bounded_note r note s f :
  frequency note = Some f → truthy (Some f) = true →
  let now := currentTime s in
  let id := S (S (next_id s)) in
  ∃ s', playArpNote r note s = Some s' ∧
        voicesRef s' !! name note = Some (mkVoice id) ∧
        ∃ g, nodes s' !! id = Some (NGain g) ∧
             automation (gain g) =
               [ setValueAtTime 0 now;
                 linearRampToValueAtTime 0.1 (now + attack (envelopeRef s));
                 linearRampToValueAtTime (sustain (envelope r))
                   (now + attack (envelopeRef s) + decay (envelopeRef s));
                 cancelAndHoldAtTime (now + 1);
                 linearRampToValueAtTime 0 (now + release (envelope r) + 1) ].
Proof.
  intros Hf Ht. cbv zeta.
  destruct (createOscillator_vca r note s f Hf Ht) as [Hv Hn].
  assert (currentTime (createOscillator r note s) = currentTime s) as Hc.
  { by rewrite (createOscillator_truthy r note s f Hf Ht). }
  unfold playArpNote. rewrite Hv, Hc. eexists. split; [reflexivity|].
  cbn [voicesRef nodes with_nodes vca]. split; [exact Hv|].
  rewrite lookup_alter_eq, Hn. eexists. split; reflexivity.
Qed.

Lemma playArpNote_schedules_bounded_note_example :
  ∃ s', playArpNote Ex.with_env.2 Ex.A4 Ex.with_env.1 = Some s' ∧
        ∃ g, nodes s' !! 2 = Some (NGain g) ∧
             automation (gain g) =
               [ setValueAtTime 0 0;
                 linearRampToValueAtTime 0.1 0.1;
                 linearRampToValueAtTime 0.2 0.6;
                 cancelAndHoldAtTime 1;
                 linearRampToValueAtTime 0 1.5 ].
Proof.
  destruct (playArpNote_schedules_bounded_note Ex.with_env.2 Ex.A4
              Ex.with_env.1 440 eq_refl eq_refl)
    as (s' & Hp & _ & g & Hg & Ha).
  exists s'. split; [exact Hp|]. exists g. split; [exact Hg|exact Ha].
Defined.

(** X15. The touch-end handler is the key-up handler without its guard:
    whenever it returns, it has done what [handleKeyUp] does for the same
    key; it throws exactly when latch is off and the key is in the key
    table with a note that the note table does not have. *)
Theorem handleKeyTouchEnd_is_key_up_or_throws T r key p :
  (∀ p', handleKeyTouchEnd T r key p = Some p' →
         p' = handleKeyUp T r key p) ∧
  (handleKeyTouchEnd T r key p = None ↔
     latch (control r) = false ∧
     ∃ nm, KEYS T !! key = Some nm ∧
           List.find (λ n, String.eqb (name n) nm) (NOTES T) = None).
Proof.
  unfold handleKeyTouchEnd, handleKeyUp, lookup_note.
  destruct (KEYS T !! key) as [nm|] eqn:Hk.
  2: { split; [by intros p' [= <-]|]. split; [done|]. by intros (_ & ? & ? & _). }
  destruct (List.find (λ n, String.eqb (name n) nm) (NOTES T)) as [note|] eqn:Hn.
  { split; [by intros p' [= <-]|]. split; [done|].
    intros (_ & nm' & [= <-] & Hf). by rewrite Hf in Hn. }
  destruct (latch (control r)).
  - split; [by intros p' [= <-]|]. split; [done|]. by intros [? _].
  - split; [done|]. split; [|done]. intros _. split; [done|]. by exists nm.
Qed.

Lemma handleKeyTouchEnd_is_key_up_or_throws_example :
  handleKeyTouchEnd (mkTables {[ "z" := "Z9" ]} [Ex.C4]) initial_render "z"
    (initial_store, initial_render) = None ∧
  handleKeyTouchEnd (mkTables {[ "z" := "Z9" ]} [Ex.C4])
    (setControl (mkControl 90 true false) initial_render) "z"
    (initial_store, initial_render) = Some (initial_store, initial_render).
Proof.
  split.
  - apply (handleKeyTouchEnd_is_key_up_or_throws
             (mkTables {[ "z" := "Z9" ]} [Ex.C4]) initial_render "z"
             (initial_store, initial_render)).
    split; [reflexivity|]. exists "Z9". split; reflexivity.
  - reflexivity.
Defined.

Lemma playArpNote_step_result r note s f :
  frequency note = Some f → truthy (Some f) = true →
  ∃ s', playArpNote r note s = Some s' ∧
        voicesRef s' !! name note = Some (mkVoice (next_id s + 2)) ∧
        next_id s' = (next_id s + 3)%nat.
Proof.
  intros Hf Ht.
  destruct (createOscillator_vca r note s f Hf Ht) as [Hv Hn].
  assert (next_id (createOscillator r note s) = S (S (S (next_id s)))) as Hi.
  { by rewrite (createOscillator_truthy r note s f Hf Ht). }
  unfold playArpNote. rewrite Hv. eexists. split; [reflexivity|].
  cbn [voicesRef next_id with_nodes]. rewrite Hv, Hi.
  split; [do 2 f_equal|]; lia.
Qed.

(** ** The round robin of the arpeggiator *)

Section RoundRobin.
Implicit Types (s : Store) (r : Render) (note : Note) (w : World).

Lemma next_cursor_mod c n :
  (c < n)%nat → next_cursor c n = ((c + 1) mod n)%nat.
Proof.
  intros Hc. unfold next_cursor. destruct (Nat.eqb_spec (S c) n) as [<-|Hne].
  - by rewrite Nat.add_1_r, Nat.Div0.mod_same.
  - rewrite Nat.mod_small by lia. lia.
Qed.

(** One timeout with at least two held notes, all with a usable frequency:
    the cursor moves on, the note under it is triggered, the next timeout
    is armed. *)
Lemma arp_timeout_triggers_next T w c d :
  arp (control (render w)) = true → arpClock w = Some d →
  currentNote (render w) = Some c →
  (c < length (pressedKeys (render w)))%nat →
  (2 ≤ length (pressedKeys (render w)))%nat →
  Forall (λ n, truthy (frequency n) = true) (pressedKeys (render w)) →
  let c' := ((c + 1) mod length (pressedKeys (render w)))%nat in
  ∃ w' n,
    step T Timeout w = Some w' ∧
    pressedKeys (render w') = pressedKeys (render w) ∧
    control (render w') = control (render w) ∧
    currentNote (render w') = Some c' ∧
    is_Some (arpClock w') ∧
    pressedKeys (render w) !! c' = Some n ∧
    next_id (store w') = (next_id (store w) + 3)%nat ∧
    voicesRef (store w') !! name n = Some (mkVoice (next_id (store w) + 2)).
Proof.
  intros Ha Hd Hc Hlt Hlen Hall. cbv zeta.
  destruct (arp_timeout_round_robin T w c d Ha Hd Hc Hlt Hlen)
    as (n & Hn & Hstep).
  rewrite (next_cursor_mod _ _ Hlt) in Hn, Hstep.
  assert (truthy (frequency n) = true) as Ht.
  { rewrite Forall_forall in Hall. apply Hall.
    by eapply list_elem_of_lookup_2. }
  destruct (frequency n) as [f|] eqn:Hf; [|done].
  set (r' := setCurrentNote _ (render w)) in *.
  destruct (playArpNote_step_result r' n (store w) f Hf Ht)
    as (s' & Hp & Hv & Hi).
  rewrite Hp in Hstep. eexists _, n. split; [exact Hstep|].
  cbn [render store arpClock].
  split; [done|]. split; [done|]. split; [done|]. split; [by eexists|].
  split; [exact Hn|]. split; [exact Hi|exact Hv].
Qed.
End RoundRobin.

(** X16. The round robin of the arpeggiator, for two or more held notes
    that all have a usable frequency: from a world with the arpeggiator on,
    a pending timeout and the cursor in range, [k] timeouts in a row all
    run to completion and leave the held notes as they are; the cursor has
    advanced by [k] modulo the number of held notes, a timeout is pending
    again, every tick has allocated the three nodes of one voice, and the
    note under the cursor is the one triggered last: its voice is the last
    node allocated. *)
Theorem arp_round_robin T k w c d :
  arp (control (render w)) = true → arpClock w = Some d →
  currentNote (render w) = Some c →
  (c < length (pressedKeys (render w)))%nat →
  (2 ≤ length (pressedKeys (render w)))%nat →
  Forall (λ n, truthy (frequency n) = true) (pressedKeys (render w)) →
  let N := length (pressedKeys (render w)) in
  ∃ w', run T (replicate k Timeout) w = Some w' ∧
        pressedKeys (render w') = pressedKeys (render w) ∧
        currentNote (render w') = Some ((c + k) mod N)%nat ∧
        is_Some (arpClock w') ∧
        next_id (store w') = (next_id (store w) + 3 * k)%nat ∧
        ((0 < k)%nat →
         ∃ n, pressedKeys (render w) !! ((c + k) mod N)%nat = Some n ∧
              voicesRef (store w') !! name n =
                Some (mkVoice (next_id (store w') - 1))).
Proof.
  revert w c d. induction k as [|k IH]; intros w c d Ha Hd Hc Hlt Hlen Hall;
    cbv zeta.
  { exists w. cbn [replicate run]. split; [done|]. split; [done|].
    rewrite Nat.add_0_r, Nat.mod_small by done.
    split; [done|]. split; [by rewrite Hd|]. split; [lia|]. lia. }
  destruct (arp_timeout_triggers_next T w c d Ha Hd Hc Hlt Hlen Hall)
    as (w1 & n1 & Hs & Hk1 & Hctl1 & Hc1 & [d1 Hd1] & Hn1 & Hi1 & Hv1).
  assert (((c + 1) mod length (pressedKeys (render w)))%nat
          < length (pressedKeys (render w)))%nat as Hlt1.
  { apply Nat.mod_upper_bound. lia. }
  destruct (IH w1 ((c + 1) mod length (pressedKeys (render w)))%nat d1)
    as (w' & Hrun & Hk' & Hc' & Hd' & Hi' & Hlast);
    rewrite ?Hk1, ?Hctl1; try done.
  rewrite Hk1 in *.
  assert ((((c + 1) mod length (pressedKeys (render w)) + k)
             mod length (pressedKeys (render w)))%nat
          = ((c + S k) mod length (pressedKeys (render w)))%nat) as Hmod.
  { rewrite Nat.Div0.add_mod_idemp_l. f_equal. lia. }
  rewrite Hmod in *.
  exists w'. cbn [replicate run]. rewrite Hs.
  split; [exact Hrun|]. split; [done|]. split; [done|]. split; [done|].
  split; [lia|]. intros _.
  destruct k as [|k].
  - cbn [replicate run] in Hrun. injection Hrun as <-.
    exists n1. split; [exact Hn1|].
    rewrite Hv1. do 2 f_equal. lia.
  - apply Hlast. lia.
Qed.

Lemma arp_round_robin_example :
  ∃ w, run Ex.tables
         [ControlChange (mkControl 90 false true); KeyDown "a" false;
          KeyDown "s" false] initial_world = Some w ∧
       ∃ w', run Ex.tables [Timeout; Timeout; Timeout] w = Some w' ∧
             currentNote (render w') = Some 1 ∧
             voicesRef (store w') !! "D4" = Some (mkVoice 14).
Proof.
  destruct (run Ex.tables
              [ControlChange (mkControl 90 false true); KeyDown "a" false;
               KeyDown "s" false] initial_world)
    as [w|] eqn:Hrun; [|vm_compute in Hrun; discriminate].
  exists w. split; [reflexivity|].
  assert (arp (control (render w)) = true ∧ is_Some (arpClock w) ∧
          currentNote (render w) = Some 0 ∧
          pressedKeys (render w) = [Ex.C4; Ex.D4] ∧
          next_id (store w) = 6) as (Ha & [d Hd] & Hc & Hk & Hi).
  { vm_compute in Hrun. injection Hrun as <-.
    split; [done|]. split; [by eexists|]. done. }
  destruct (arp_round_robin Ex.tables 3 w 0 d Ha Hd Hc)
    as (w' & Hrun' & _ & Hc' & _ & Hi' & Hlast).
  - rewrite Hk. cbn. lia.
  - rewrite Hk. cbn. lia.
  - rewrite Hk. by repeat constructor.
  - exists w'. split; [exact Hrun'|]. rewrite Hk in Hc', Hlast.
    split; [exact Hc'|].
    destruct (Hlast ltac:(lia)) as (n & Hn & Hv).
    cbn in Hn. injection Hn as <-.
    change (voicesRef (store w') !! name Ex.D4 = Some (mkVoice 14)).
    rewrite Hv, Hi', Hi. reflexivity.
Defined.

(** ** Edge cases of a key-down and of the LFO setter *)

(** X17. A key whose note has no usable frequency is held silently: with
    the arpeggiator off, the key-down of such a note that is not held
    appends it to the held notes and leaves the store exactly as it is, no
    node allocated and no voice registered. *)
Theorem key_without_frequency_is_held_silently T w key shiftKey note :
  arp (control (render w)) = false →
  lookup_note T key = Some note →
  truthy (frequency note) = false →
  key ≠ "Escape" → ¬ (key = "M" ∧ shiftKey = true) →
  name note ∉ held_names (render w) →
  step T (KeyDown key shiftKey) w =
    Some (mkWorld
            (setPressedKeys (pressedKeys (render w) ++ [note]) (render w))
            (store w) None).
Proof.
  intros Ha Hn Hf He Hm Hh.
  rewrite (step_press_new T w key shiftKey note Ha Hn He Hm Hh).
  by rewrite createOscillator_falsy.
Qed.

Lemma key_without_frequency_is_held_silently_example :
  ∃ w', step Ex.tables (KeyDown "x" false) initial_world = Some w' ∧
        pressedKeys (render w') = [Ex.X] ∧ store w' = initial_store.
Proof.
  eexists. split.
  - apply (key_without_frequency_is_held_silently Ex.tables initial_world
             "x" false Ex.X eq_refl eq_refl eq_refl).
    + discriminate.
    + by intros [? _].
    + apply not_elem_of_nil.
  - by split.
Defined.

(** X18. What the LFO setter does besides the routing: every LFO change
    runs to completion without running the arpeggiator effect, makes the
    new record the LFO state, sets the type of the LFO oscillator to the
    new type, and schedules the new frequency on the LFO oscillator at the
    current time, whether the frequency changed or not; the heap of voice
    nodes and the voice map are untouched, and a change that keeps the
    target keeps every connection of the LFO gain. *)
Theorem handleLFOChange_updates_the_lfo T w newLFO :
  ∃ w', step T (LFOChange newLFO) w = Some w' ∧
        lfo (render w') = newLFO ∧
        arpClock w' = arpClock w ∧
        osc_type (lfoRef (store w')) = l_type newLFO ∧
        automation (osc_frequency (lfoRef (store w'))) =
          automation (osc_frequency (lfoRef (store w))) ++
          [setValueAtTime (l_frequency newLFO) (currentTime (store w))] ∧
        nodes (store w') = nodes (store w) ∧
        voicesRef (store w') = voicesRef (store w) ∧
        (l_destination newLFO = l_destination (lfo (render w)) →
         gain_outputs (lfoGainRef (store w')) =
           gain_outputs (lfoGainRef (store w))).
Proof.
  destruct w as [r s clock]. unfold step. cbn [render store arpClock].
  destruct (handleLFOChange_outputs r newLFO (s, r))
    as (Hn & Hv & _ & _ & Hl & _ & Hd & Ho).
  rewrite commit_same_deps by exact Hd.
  eexists. split; [reflexivity|]. cbn [render store arpClock].
  split; [exact Hl|]. split; [done|].
  split; [|split; [|split; [exact Hn|split; [exact Hv|]]]].
  - unfold handleLFOChange, on_store, on_state. cbv zeta. cbn [fst snd].
    repeat case_match; cbn [lfoRef with_lfo with_lfoGain osc_type];
      try reflexivity;
      match goal with
      | H : negb (String.eqb _ _) = false |- _ =>
          apply negb_false_iff, String.eqb_eq in H; exact H
      end.
  - unfold handleLFOChange, on_store, on_state. cbv zeta. cbn [fst snd].
    by repeat case_match.
  - intros He. rewrite Ho, He. by rewrite String.eqb_refl.
Qed.

